(** * escalade (sync): upward directory walk with process-wide caches

    Shallow embedding of [src/sync.js].

    - The module-level mutable state ([pathCache], [statCache],
      [readdirCache], [cacheKeys]) is a record threaded through every call.
    - Arrays are objects: [readdirSync] allocates one in a heap, and the
      listing cache and the callback hold references to it.
    - A call returns a value, throws, or runs out of fuel; the fuel bounds
      the passes through [while (true)] and is shown to be sufficient.
    - Every call records its filesystem reads, its callback invocations and
      its loop iterations, so that statements can speak about them.
    - Node's POSIX [path] functions are modelled on strings in [Path]; the
      filesystem is a pair of partial functions, fixed for the duration of
      one call and free to change between calls.
    - A callback is its source text plus a total function on the heap;
      callbacks that throw or that call back into the module are outside the
      model. *)

From stdpp Require Import gmap strings list fin_maps pretty.
From Stdlib Require Import Ascii.
From Stdlib Require String.

(** ** Node's POSIX [path] module (the part [sync.js] imports) *)

Module Path.

Definition is_slash (c : ascii) : bool := Ascii.eqb c "/"%char.

(** [String.prototype.split('/')]: a string with [n] slashes gives
    [n + 1] pieces, so the result is never empty. *)
Fixpoint split (s : string) : list string :=
  match s with
  | EmptyString => [EmptyString]
  | String c s' =>
      if is_slash c then EmptyString :: split s'
      else match split s' with
           | seg :: segs => String c seg :: segs
           | [] => [String c EmptyString]
           end
  end.

(** [Array.prototype.join('/')]. *)
Fixpoint join (segs : list string) : string :=
  match segs with
  | [] => ""
  | [seg] => seg
  | seg :: rest => seg +:+ "/" +:+ join rest
  end.

(** [Array.prototype.pop] as used on the result of [split]: the last
    element, [None] standing for [undefined] on an empty array. *)
Definition pop (segs : list string) : option string := last segs.

Definition isAbsolute (p : string) : bool :=
  match p with
  | String c _ => is_slash c
  | EmptyString => false
  end.

(** One segment of [normalizeString]; [res] is the stack of kept segments,
    most recent first. *)
Definition norm_step (allowAboveRoot : bool) (res : list string) (seg : string)
  : list string :=
  if bool_decide (seg = "" ∨ seg = ".") then res
  else if bool_decide (seg = "..") then
    match res with
    | top :: res' =>
        if bool_decide (top = "..")
        then (if allowAboveRoot then ".." :: res else res)
        else res'
    | [] => if allowAboveRoot then [".."] else []
    end
  else seg :: res.

Definition normalizeSegments (allowAboveRoot : bool) (segs : list string)
  : list string :=
  rev (foldl (norm_step allowAboveRoot) [] segs).

Definition normalizeString (path : string) (allowAboveRoot : bool) : string :=
  join (normalizeSegments allowAboveRoot (split path)).

(** The right-to-left loop of [path.resolve]: [paths] lists the arguments
    from the last one to the first one, followed by the working directory. *)
Fixpoint resolve_go (paths : list string) (resolvedPath : string) : string * bool :=
  match paths with
  | [] => (resolvedPath, false)
  | p :: rest =>
      if bool_decide (p = "") then resolve_go rest resolvedPath
      else
        let resolvedPath' := p +:+ "/" +:+ resolvedPath in
        if isAbsolute p then (resolvedPath', true)
        else resolve_go rest resolvedPath'
  end.

Definition resolve (cwd : string) (args : list string) : string :=
  let '(resolvedPath, resolvedAbsolute) := resolve_go (rev args ++ [cwd]) "" in
  let n := normalizeString resolvedPath (negb resolvedAbsolute) in
  if resolvedAbsolute then "/" +:+ n
  else if bool_decide (n = "") then "." else n.

Fixpoint drop_while {A} (f : A → bool) (l : list A) : list A :=
  match l with
  | [] => []
  | x :: l' => if f x then drop_while f l' else l
  end.

(** [path.dirname]: the scan runs from the last character down to index 1;
    it skips trailing slashes, then the base name, and cuts at the slash in
    front of it. *)
Definition dirname (path : string) : string :=
  match path with
  | EmptyString => "."
  | String c0 rest =>
      let hasRoot := is_slash c0 in
      let scan := rev (String.list_ascii_of_string rest) in
      let afterSlashes := drop_while is_slash scan in
      let afterBase := drop_while (λ c, negb (is_slash c)) afterSlashes in
      match afterBase with
      | [] => if hasRoot then "/" else "."
      | _ :: before =>
          match before with
          | [] => if hasRoot then "//" else String c0 EmptyString
          | _ => String c0 (String.string_of_list_ascii (rev before))
          end
      end
  end.

(** Number of named components of a path. *)
Definition depth (p : string) : nat :=
  length (filter (λ seg, seg ≠ "") (split p)).

(** A component of a canonical path: a name without slash, other than the
    empty name, [.] and [..]. *)
Fixpoint no_slash (s : string) : bool :=
  match s with
  | EmptyString => true
  | String c s' => negb (is_slash c) && no_slash s'
  end.

Definition component (seg : string) : bool :=
  no_slash seg && bool_decide (seg ≠ "") && bool_decide (seg ≠ ".")
  && bool_decide (seg ≠ "..").

(** The canonical absolute path with the given components, root first. *)
Definition absolute (comps : list string) : string := "/" +:+ join comps.

End Path.

(** ** JavaScript values, the heap of arrays, and the module state *)

(** What a decision callback may hand back, and what [pathCache] stores:
    [undefined], a boolean (as in [names.includes(x) && x]) or a string. *)
Inductive jsval :=
  | JUndefined
  | JBool (b : bool)
  | JStr (s : string).

Global Instance jsval_eq_dec : EqDecision jsval.
Proof. solve_decision. Defined.

(** The test of [if (tmp)]: the empty string is falsy. *)
Definition truthy (v : jsval) : bool :=
  match v with
  | JUndefined => false
  | JBool b => b
  | JStr s => negb (bool_decide (s = ""))
  end.

(** Arrays are objects: [readdirSync] allocates one, and the cache and the
    callback hold references to it. *)
Definition loc := nat.

(** The part of [fs.Stats] that the code reads. *)
Record Stats := { isDirectory : bool }.

Inductive error :=
  | FsError (syscall path : string)
  | ERR_INVALID_ARG_TYPE.

(** The filesystem as seen during one call: [None] is a thrown error
    (missing path, permission denied). *)
Record filesystem := {
  fs_stat : string → option Stats;
  fs_readdir : string → option (list string);
}.

(** A callback is a function object: its source text, as given by
    [callback.toString()], and its behaviour.  What it closes over is part of
    [call]; mutable state it shares with the caller lives in the heap, which
    it may read and update, as it may update the array it is handed. *)
Record callback := {
  toString : string;
  call : string → loc → gmap loc (list string) → jsval * gmap loc (list string);
}.

Record state := {
  pathCache : gmap string jsval;
  statCache : gmap string Stats;
  readdirCache : gmap string loc;
  cacheKeys : list string;
  heap : gmap loc (list string);
}.

Definition set_pathCache (m : gmap string jsval) (s : state) : state :=
  {| pathCache := m; statCache := statCache s; readdirCache := readdirCache s;
     cacheKeys := cacheKeys s; heap := heap s |}.

Definition set_statCache (ck : gmap string Stats * list string) (s : state) : state :=
  {| pathCache := pathCache s; statCache := ck.1; readdirCache := readdirCache s;
     cacheKeys := ck.2; heap := heap s |}.

Definition set_readdirCache (ck : gmap string loc * list string) (s : state) : state :=
  {| pathCache := pathCache s; statCache := statCache s; readdirCache := ck.1;
     cacheKeys := ck.2; heap := heap s |}.

Definition set_heap (h : gmap loc (list string)) (s : state) : state :=
  {| pathCache := pathCache s; statCache := statCache s;
     readdirCache := readdirCache s; cacheKeys := cacheKeys s; heap := h |}.

(** Process start: every store empty. *)
Definition init : state :=
  {| pathCache := ∅; statCache := ∅; readdirCache := ∅; cacheKeys := [];
     heap := ∅ |}.

(** Observable steps of a call, recorded for the statements below:
    filesystem reads, callback invocations (with the array reference passed
    and the value returned), and the start of each loop iteration. *)
Inductive event :=
  | EvStat (path : string)
  | EvReaddir (path : string)
  | EvCallback (dir : string) (files : loc) (ret : jsval)
  | EvVisit (dir : string).

Global Instance event_eq_dec : EqDecision event.
Proof. solve_decision. Defined.

Definition is_fs_read (e : event) : bool :=
  match e with EvStat _ | EvReaddir _ => true | _ => false end.
Definition is_callback (e : event) : bool :=
  match e with EvCallback _ _ _ => true | _ => false end.
Definition is_visit (e : event) : bool :=
  match e with EvVisit _ => true | _ => false end.

(** Loop iterations that got past the visited-set guard. *)
Definition iterations (evs : list event) : nat := length (filter is_visit evs).

(** ** Computations: state, thrown errors, recorded events *)

Inductive outcome (A : Type) :=
  | Return (a : A)
  | Throw (e : error)
  | OutOfFuel.
Arguments Return {A} a.
Arguments Throw {A} e.
Arguments OutOfFuel {A}.

Definition M (A : Type) : Type := state → outcome A * state * list event.

Definition ret {A} (a : A) : M A := λ s, (Return a, s, []).
Definition throw {A} (e : error) : M A := λ s, (Throw e, s, []).
Definition diverge {A} : M A := λ s, (OutOfFuel, s, []).
Definition bind {A B} (m : M A) (f : A → M B) : M B := λ s,
  match m s with
  | (Return a, s1, evs1) =>
      match f a s1 with (o, s2, evs2) => (o, s2, evs1 ++ evs2) end
  | (Throw e, s1, evs1) => (Throw e, s1, evs1)
  | (OutOfFuel, s1, evs1) => (OutOfFuel, s1, evs1)
  end.
Definition gets {A} (f : state → A) : M A := λ s, (Return (f s), s, []).
Definition modify (f : state → state) : M unit := λ s, (Return tt, f s, []).
Definition emit (e : event) : M unit := λ s, (Return tt, s, [e]).

Notation "'let*' x ':=' m 'in' k" := (bind m (λ x, k))
  (at level 10, x name, m at level 100, k at level 200, only parsing).

(** ** The caches *)

Definition MAX_CACHE_SIZE : nat := 100.

Definition SKIP_DIRS : gset string := {[ ".git"; "node_modules" ]}.

(** [addToCache(cache, key, value)], for a [cache] passed by reference: the
    function returns the updated map and the updated module-level
    [cacheKeys].  [shift] on an empty array yields [undefined], which is a
    key of no map. *)
Definition addToCache {V} (cache : gmap string V) (keys : list string)
    (key : string) (value : V) : gmap string V * list string :=
  if bool_decide (MAX_CACHE_SIZE ≤ size cache) then
    match keys with
    | oldestKey :: keys' => (<[key := value]> (delete oldestKey cache), keys' ++ [key])
    | [] => (<[key := value]> cache, [key])
    end
  else (<[key := value]> cache, keys ++ [key]).

Definition getCachedStat (path : string) : M (option Stats) :=
  gets (λ s, statCache s !! path).

Definition setCachedStat (path : string) (stats : Stats) : M unit :=
  modify (λ s,
    set_statCache (addToCache (statCache s) (cacheKeys s) path stats) s).

Definition getCachedReaddir (path : string) : M (option loc) :=
  gets (λ s, readdirCache s !! path).

Definition setCachedReaddir (path : string) (files : loc) : M unit :=
  modify (λ s,
    set_readdirCache (addToCache (readdirCache s) (cacheKeys s) path files) s).

(** [pathCache.set(cacheKey, value)] *)
Definition pathCache_set (cacheKey : string) (value : jsval) : M unit :=
  modify (λ s, set_pathCache (<[cacheKey := value]> (pathCache s)) s).

(** ** The collaborators *)

Definition statSync (fs : filesystem) (path : string) : M Stats :=
  let* _ := emit (EvStat path) in
  match fs_stat fs path with
  | Some stats => ret stats
  | None => throw (FsError "stat" path)
  end.

(** [readdirSync] returns a new array. *)
Definition readdirSync (fs : filesystem) (path : string) : M loc :=
  let* _ := emit (EvReaddir path) in
  match fs_readdir fs path with
  | Some names =>
      let* l := gets (λ s, fresh (dom (heap s))) in
      let* _ := modify (λ s, set_heap (<[l := names]> (heap s)) s) in
      ret l
  | None => throw (FsError "scandir" path)
  end.

(** [callback(dir, files)] *)
Definition invoke (cb : callback) (dir : string) (files : loc) : M jsval := λ s,
  let '(v, h) := call cb dir files (heap s) in
  (Return v, set_heap h s, [EvCallback dir files v]).

(** [resolve(dir, tmp)] for a truthy [tmp]: [path.resolve] rejects
    arguments that are not strings. *)
Definition resolve_value (cwd dir : string) (tmp : jsval) : M string :=
  match tmp with
  | JStr v => ret (Path.resolve cwd [dir; v])
  | _ => throw ERR_INVALID_ARG_TYPE
  end.

(** ** The default export of [sync.js] *)

(** Lines 57-61: the metadata of the start path, from the cache or from the
    filesystem. *)
Definition startStats (fs : filesystem) (dir : string) : M Stats :=
  let* cached := getCachedStat dir in
  match cached with
  | Some stats => ret stats
  | None =>
      let* stats := statSync fs dir in
      let* _ := setCachedStat dir stats in
      ret stats
  end.

(** Lines 76-80: the listing of [dir], from the cache or from the
    filesystem. *)
Definition listing (fs : filesystem) (dir : string) : M loc :=
  let* cached := getCachedReaddir dir in
  match cached with
  | Some files => ret files
  | None =>
      let* files := readdirSync fs dir in
      let* _ := setCachedReaddir dir files in
      ret files
  end.

(** Line 83: [dirname(dir).split('/').pop()]. *)
Definition dirName (dir : string) : option string :=
  Path.pop (Path.split (Path.dirname dir)).

Definition skipped (dir : string) : bool :=
  match dirName dir with
  | Some name => bool_decide (name ∈ SKIP_DIRS)
  | None => false
  end.

(** Lines 101-103: leaving the loop through [break]. *)
Definition notFound (cacheKey : string) : M jsval :=
  let* _ := pathCache_set cacheKey JUndefined in
  ret JUndefined.

(** Lines 70-99: the [while (true)] loop; [fuel] bounds the number of times
    the loop body is entered. *)
Fixpoint walk (fuel : nat) (fs : filesystem) (cwd : string) (cb : callback)
    (cacheKey : string) (dir : string) (visited : gset string) : M jsval :=
  match fuel with
  | 0 => diverge
  | S fuel' =>
      if bool_decide (dir ∈ visited) then notFound cacheKey
      else
        let* _ := emit (EvVisit dir) in
        let visited := {[dir]} ∪ visited in
        let* files := listing fs dir in
        if skipped dir then notFound cacheKey
        else
          let* tmp := invoke cb dir files in
          if truthy tmp then
            let* result := resolve_value cwd dir tmp in
            let* _ := pathCache_set cacheKey (JStr result) in
            ret (JStr result)
          else
            let nextDir := Path.dirname dir in
            if bool_decide (nextDir = dir) then notFound cacheKey
            else walk fuel' fs cwd cb cacheKey nextDir visited
  end.

(** Line 51 *)
Definition cacheKeyOf (dir : string) (cb : callback) : string :=
  dir +:+ ":" +:+ toString cb.

Definition locateBlocking (fuel : nat) (fs : filesystem) (cwd : string)
    (start : string) (cb : callback) : M jsval :=
  let dir := Path.resolve cwd ["."; start] in
  let cacheKey := cacheKeyOf dir cb in
  let* hit := gets (λ s, pathCache s !! cacheKey) in
  match hit with
  | Some value => ret value
  | None =>
      let* stats := startStats fs dir in
      let dir := if isDirectory stats then dir else Path.dirname dir in
      walk fuel fs cwd cb cacheKey dir ∅
  end.

(** ** Small filesystems and callbacks for concrete runs *)

(** A filesystem given by the list of its directories, each with its entries;
    every entry that is not itself a listed directory is a file. *)
Definition fs_of (dirs : list (string * list string)) (files : list string)
  : filesystem :=
  {| fs_stat p :=
       if bool_decide (p ∈ dirs.*1) then Some {| isDirectory := true |}
       else if bool_decide (p ∈ files) then Some {| isDirectory := false |}
       else None;
     fs_readdir p := (list_to_map dirs : gmap string (list string)) !! p |}.

(** [(dir, files) => files.includes(name) && name] *)
Definition cb_includes (name : string) : callback :=
  {| toString := "(dir, files) => files.includes('" +:+ name +:+ "') && '" +:+ name +:+ "'";
     call dir files h :=
       (match h !! files with
        | Some names => if bool_decide (name ∈ names) then JStr name else JBool false
        | None => JBool false
        end, h) |}.

(** [() => false], with a tag to tell textually different functions apart *)
Definition cb_never (tag : string) : callback :=
  {| toString := "() => false /*" +:+ tag +:+ "*/";
     call dir files h := (JBool false, h) |}.

(** [() => v] *)
Definition cb_const (v : string) : callback :=
  {| toString := "() => '" +:+ v +:+ "'";
     call dir files h := (JStr v, h) |}.

(** The scenario of the specification: [/a/b/c/file.txt], with
    [package.json] in [/a]. *)
Definition fs_scenario : filesystem :=
  fs_of [("/", ["a"]); ("/a", ["b"; "package.json"]); ("/a/b", ["c"]);
         ("/a/b/c", ["file.txt"])]
        ["/a/package.json"; "/a/b/c/file.txt"].

(** [() => target], for a variable [target] of the enclosing scope: the text
    does not depend on the value captured. *)
Definition cb_closure (target : string) : callback :=
  {| toString := "() => target";
     call dir files h := (JStr target, h) |}.

(** [(dir, files) => { files.push(name) }] *)
Definition cb_push (name : string) : callback :=
  {| toString := "(dir, files) => { files.push('" +:+ name +:+ "') }";
     call dir files h := (JUndefined, alter (λ names, names ++ [name]) files h) |}.

(** The scenario after [/a/b/c/file.txt] has been deleted. *)
Definition fs_scenario_deleted : filesystem :=
  fs_of [("/", ["a"]); ("/a", ["b"; "package.json"]); ("/a/b", ["c"]);
         ("/a/b/c", [])]
        ["/a/package.json"].

(** A project with an installed package. *)
Definition fs_project : filesystem :=
  fs_of [("/", ["proj"]); ("/proj", ["node_modules"; "package.json"]);
         ("/proj/node_modules", ["pkg"]);
         ("/proj/node_modules/pkg", ["index.js"])]
        ["/proj/package.json"; "/proj/node_modules/pkg/index.js"].

(** A root directory holding the files [f0], [f1], ... *)
Definition flat_name (i : nat) : string := "f" +:+ pretty i.
Definition flat_path (i : nat) : string := "/" +:+ flat_name i.
Definition fs_flat (n : nat) : filesystem :=
  fs_of [("/", flat_name <$> seq 0 n)] (flat_path <$> seq 0 n).

(** The state after a sequence of calls, from process start. *)
Definition run_calls (fs : filesystem) (cwd : string)
    (calls : list (string * callback)) : state :=
  foldl (λ s c, (locateBlocking 10 fs cwd c.1 c.2 s).1.2) init calls.

(** [n] calls with the same callback, one per file of the flat directory. *)
Definition flat_run (n : nat) : state :=
  run_calls (fs_flat n) "/" ((λ i, (flat_path i, cb_never "")) <$> seq 0 n).

(** Directories for which the callback was invoked, in order. *)
Definition invoked (evs : list event) : list string :=
  omap (λ e, match e with EvCallback dir _ _ => Some dir | _ => None end) evs.

(** Directories examined by the loop, in order. *)
Definition visits (evs : list event) : list string :=
  omap (λ e, match e with EvVisit dir => Some dir | _ => None end) evs.

(** [dirs] starts at [dir] and each next element is the parent of the one
    before it, and different from it. *)
Fixpoint parent_chain (dir : string) (dirs : list string) : Prop :=
  match dirs with
  | [] => True
  | d :: dirs' =>
      d = dir
      ∧ (dirs' = [] ∨ (Path.dirname dir ≠ dir ∧ parent_chain (Path.dirname dir) dirs'))
  end.

(** ** The implementation before the caches ([benchmark/comparison.js]) *)

(** The loop of [escaladeSyncOriginal] (lines 36-41): list the directory,
    ask the callback, resolve a truthy answer, otherwise go to the parent
    until the parent is the directory itself. *)
Fixpoint walkOriginal (fuel : nat) (fs : filesystem) (cwd : string)
    (cb : callback) (dir : string) : M jsval :=
  match fuel with
  | 0 => diverge
  | S fuel' =>
      let* files := readdirSync fs dir in
      let* tmp := invoke cb dir files in
      if truthy tmp then
        let* result := resolve_value cwd dir tmp in
        ret (JStr result)
      else
        let tmp := dir in
        let dir := Path.dirname tmp in
        if bool_decide (tmp = dir) then ret JUndefined
        else walkOriginal fuel' fs cwd cb dir
  end.

(** [escaladeSyncOriginal(start, callback)] (lines 28-42) *)
Definition escaladeSyncOriginal (fuel : nat) (fs : filesystem) (cwd : string)
    (start : string) (cb : callback) : M jsval :=
  let dir := Path.resolve cwd ["."; start] in
  let* stats := statSync fs dir in
  let dir := if isDirectory stats then dir else Path.dirname dir in
  walkOriginal fuel fs cwd cb dir.

(** ** Vocabulary for the statements about whole runs *)

(** One call of the default export: fuel, filesystem at call time, working
    directory, start path, callback. *)
Record invocation := {
  inv_fuel : nat;
  inv_fs : filesystem;
  inv_cwd : string;
  inv_start : string;
  inv_callback : callback;
}.

(** The state after a sequence of calls, whatever their outcomes. *)
Definition run_from (s : state) (calls : list invocation) : state :=
  foldl (λ s c, (locateBlocking (inv_fuel c) (inv_fs c) (inv_cwd c)
                   (inv_start c) (inv_callback c) s).1.2) s calls.

Definition is_stat (e : event) : bool :=
  match e with EvStat _ => true | _ => false end.

(** A callback whose writes stay within [own], a set of heap cells that
    hold its own state: every other cell, the arrays it is given among
    them, comes back as it was, and the cells of [own] stay allocated.  A
    callback without side effects is the case [own = ∅]. *)
Definition writes_only (own : gset loc) (cb : callback) : Prop :=
  ∀ dir files h,
    (∀ l, l ∉ own → (call cb dir files h).2 !! l = h !! l)
    ∧ (own ⊆ dom h → own ⊆ dom (call cb dir files h).2).

(** The cells of [own] are allocated, and none of them is a cached
    listing. *)
Definition separate (own : gset loc) (s : state) : Prop :=
  own ⊆ dom (heap s)
  ∧ ∀ dir files, readdirCache s !! dir = Some files → files ∉ own.

(** Every cached listing is the listing the filesystem gives. *)
Definition coherent (fs : filesystem) (s : state) : Prop :=
  ∀ dir files, readdirCache s !! dir = Some files →
    ∃ names, fs_readdir fs dir = Some names ∧ heap s !! files = Some names.

(** The eviction queue is no longer than what the two stores that feed it
    can account for, each up to the capacity. *)
Definition queue_bounded (s : state) : Prop :=
  length (cacheKeys s)
  ≤ size (statCache s) `min` MAX_CACHE_SIZE
    + size (readdirCache s) `min` MAX_CACHE_SIZE.

(** The events of a walk, iteration by iteration: the directory is marked
    visited, listed from the filesystem unless the listing is cached, and
    handed to the callback unless the walk stops before. *)
Inductive walk_trace : list event → Prop :=
  | trace_nil : walk_trace []
  | trace_stop dir reads :
      reads = [] ∨ reads = [EvReaddir dir] →
      walk_trace (EvVisit dir :: reads)
  | trace_step dir reads files v rest :
      reads = [] ∨ reads = [EvReaddir dir] →
      walk_trace rest →
      walk_trace (EvVisit dir :: reads ++ EvCallback dir files v :: rest).

(** Every cached result is [undefined] or a canonical absolute path. *)
Definition results_canonical (s : state) : Prop :=
  ∀ key v, pathCache s !! key = Some v →
    v = JUndefined
    ∨ ∃ comps, Forall (λ c, Path.component c = true) comps
               ∧ v = JStr (Path.absolute comps).

(** The events the two implementations can be compared on: everything but
    the bookkeeping of the visited set. *)
Definition observable (evs : list event) : list event :=
  filter (λ e, negb (is_visit e)) evs.

(** [dir => { seen.push(dir) }], for an array [seen] of the enclosing
    scope, held in the heap cell [l]. *)
Definition cb_seen (l : loc) : callback :=
  {| toString := "dir => { seen.push(dir) }";
     call dir files h := (JUndefined, alter (λ dirs, dirs ++ [dir]) l h) |}.

(** [() => true] *)
Definition cb_true : callback :=
  {| toString := "() => true";
     call dir files h := (JBool true, h) |}.


Example resolve_ex1 : Path.resolve "/home/u" ["."; "a/../b/./c.txt"] = "/home/u/b/c.txt".
Proof. reflexivity. Qed.
Example resolve_ex2 : Path.resolve "/home/u" ["/a/b"; "/tmp/"] = "/tmp".
Proof. reflexivity. Qed.
Example resolve_ex3 : Path.resolve "/home/u" ["/"; ".."] = "/".
Proof. reflexivity. Qed.
Example dirname_ex1 : Path.dirname "/a/b/c" = "/a/b".
Proof. reflexivity. Qed.
Example dirname_ex2 : Path.dirname "/a" = "/".
Proof. reflexivity. Qed.
Example dirname_ex3 : Path.dirname "/" = "/".
Proof. reflexivity. Qed.
Example dirname_ex4 : Path.dirname "//a" = "//".
Proof. reflexivity. Qed.
Example dirname_ex5 : Path.dirname "a/b//" = "a".
Proof. reflexivity. Qed.
Example dirName_ex1 : dirName "/proj/node_modules" = Some "proj".
Proof. reflexivity. Qed.
Example dirName_ex2 : dirName "/" = Some "".
Proof. reflexivity. Qed.
Example split_ex1 : Path.split "/a/b" = [""; "a"; "b"].
Proof. reflexivity. Qed.
Example split_ex2 : Path.split "/" = [""; ""].
Proof. reflexivity. Qed.
Example depth_ex : Path.depth "/a/b/c" = 3.
Proof. reflexivity. Qed.

Example scenario_result :
  (locateBlocking 10 fs_scenario "/" "/a/b/c/file.txt" (cb_includes "package.json") init).1.1
  = Return (JStr "/a/package.json").
Proof. vm_compute. reflexivity. Qed.

Example scenario_events :
  (locateBlocking 10 fs_scenario "/" "/a/b/c/file.txt" (cb_includes "package.json") init).2
  = [EvStat "/a/b/c/file.txt"; EvVisit "/a/b/c"; EvReaddir "/a/b/c";
     EvCallback "/a/b/c" 0 (JBool false); EvVisit "/a/b"; EvReaddir "/a/b";
     EvCallback "/a/b" 1 (JBool false); EvVisit "/a"; EvReaddir "/a";
     EvCallback "/a" 2 (JStr "package.json")].
Proof. vm_compute. reflexivity. Qed.

(** ** Facts about the path functions *)

Module PathFacts.
Import Path.

Lemma sapp_cons c (s t : string) : String c s +:+ t = String c (s +:+ t).
Proof. reflexivity. Qed.

Lemma sapp_empty_l (t : string) : "" +:+ t = t.
Proof. reflexivity. Qed.

Lemma sapp_empty_r (s : string) : s +:+ "" = s.
Proof. induction s as [|c s IH]; [done|]. by rewrite sapp_cons, IH. Qed.

Lemma sapp_assoc (s t u : string) : (s +:+ t) +:+ u = s +:+ (t +:+ u).
Proof. induction s as [|c s IH]; [done|]. by rewrite !sapp_cons, IH. Qed.

Lemma to_list_app (s t : string) :
  String.list_ascii_of_string (s +:+ t)
  = String.list_ascii_of_string s ++ String.list_ascii_of_string t.
Proof. induction s as [|c s IH]; [done|]. rewrite sapp_cons. simpl. by rewrite IH. Qed.

Lemma component_spec seg :
  component seg = true ↔
  no_slash seg = true ∧ seg ≠ "" ∧ seg ≠ "." ∧ seg ≠ "..".
Proof.
  unfold component. rewrite !andb_true_iff, !bool_decide_eq_true. tauto.
Qed.

Lemma split_nonempty s : split s ≠ [].
Proof.
  induction s as [|c s IH]; simpl; [done|].
  destruct (is_slash c); [done|]. by destruct (split s).
Qed.

(** Splitting distributes over a slash. *)
Lemma split_app_slash s t : split (s +:+ "/" +:+ t) = split s ++ split t.
Proof.
  induction s as [|c s IH]; [done|].
  rewrite sapp_cons. simpl. destruct (is_slash c).
  - by rewrite IH.
  - rewrite IH. pose proof (split_nonempty s). by destruct (split s).
Qed.

Lemma split_no_slash s : no_slash s = true → split s = [s].
Proof.
  induction s as [|c s IH]; simpl; [done|].
  intros [Hc Hs]%andb_true_iff. apply negb_true_iff in Hc. rewrite Hc.
  by rewrite IH.
Qed.

Lemma split_pieces s : Forall (λ seg, no_slash seg = true) (split s).
Proof.
  induction s as [|c s IH]; simpl; [by repeat constructor|].
  destruct (is_slash c) eqn:Hc; [by constructor|].
  destruct (split s) as [|seg segs].
  - constructor; [|constructor]. simpl. by rewrite Hc.
  - inversion IH; subst. constructor; [|done]. simpl. by rewrite Hc.
Qed.

Lemma split_join segs :
  segs ≠ [] → Forall (λ seg, no_slash seg = true) segs →
  split (join segs) = segs.
Proof.
  induction segs as [|a segs IH]; [done|]. intros _ Hall.
  inversion Hall as [|? ? Ha Hrest]; subst.
  destruct segs as [|b segs]; [by apply split_no_slash|].
  change (join (a :: b :: segs)) with (a +:+ "/" +:+ join (b :: segs)).
  rewrite split_app_slash, split_no_slash by done. by rewrite IH.
Qed.

Lemma join_snoc segs seg :
  segs ≠ [] → join (segs ++ [seg]) = join segs +:+ "/" +:+ seg.
Proof.
  induction segs as [|a segs IH]; [done|]. intros _.
  destruct segs as [|b segs]; [done|].
  change (join ((a :: b :: segs) ++ [seg]))
    with (a +:+ "/" +:+ join ((b :: segs) ++ [seg])).
  rewrite IH by done.
  change (join (a :: b :: segs)) with (a +:+ "/" +:+ join (b :: segs)).
  by rewrite !sapp_assoc.
Qed.

Lemma components_no_slash comps :
  Forall (λ c, component c = true) comps →
  Forall (λ seg, no_slash seg = true) comps.
Proof.
  intros Hall. eapply Forall_impl; [exact Hall|].
  intros c Hc. by apply component_spec in Hc as [? _].
Qed.

(** The pieces of a canonical absolute path: an empty piece in front of the
    first slash, then the components (or one more empty piece at the root). *)
Lemma split_absolute comps :
  Forall (λ c, component c = true) comps →
  split (absolute comps) = "" :: (if comps is [] then [""] else comps).
Proof.
  intros Hall. unfold absolute.
  change ("/" +:+ join comps) with (String "/" (join comps)).
  simpl. f_equal.
  destruct comps as [|a comps]; [done|].
  apply split_join; [done|]. by apply components_no_slash.
Qed.

Lemma filter_components comps :
  Forall (λ c, component c = true) comps →
  filter (λ seg : string, seg ≠ "") comps = comps.
Proof.
  induction 1 as [|c comps Hc _ IH]; [done|].
  rewrite filter_cons_True; [by rewrite IH|].
  by apply component_spec in Hc as (_ & ? & _).
Qed.

Lemma depth_absolute comps :
  Forall (λ c, component c = true) comps → depth (absolute comps) = length comps.
Proof.
  intros Hall. unfold depth. rewrite split_absolute by done.
  rewrite filter_cons_False by naive_solver.
  destruct comps as [|a comps]; [done|]. by rewrite filter_components.
Qed.

Lemma drop_while_app_keep {A} (f : A → bool) l1 l2 :
  l1 ≠ [] → Forall (λ x, f x = false) l1 →
  drop_while f (l1 ++ l2) = l1 ++ l2.
Proof.
  destruct l1 as [|x l1]; [done|]. intros _ Hall.
  inversion Hall as [|? ? Hx _]; subst. simpl. by rewrite Hx.
Qed.

Lemma drop_while_app_drop {A} (f : A → bool) l1 l2 :
  Forall (λ x, f x = true) l1 → drop_while f (l1 ++ l2) = drop_while f l2.
Proof. induction 1 as [|x l1 Hx _ IH]; [done|]. simpl. by rewrite Hx. Qed.

Lemma no_slash_chars s :
  no_slash s = true →
  Forall (λ c, is_slash c = false) (String.list_ascii_of_string s).
Proof.
  induction s as [|c s IH]; simpl; [constructor|].
  intros [Hc Hs]%andb_true_iff. constructor; [by apply negb_true_iff|auto].
Qed.

Lemma to_list_nonempty s : s ≠ "" → String.list_ascii_of_string s ≠ [].
Proof. by destruct s. Qed.

Lemma join_nonempty comps :
  comps ≠ [] → Forall (λ c, component c = true) comps → join comps ≠ "".
Proof.
  destruct comps as [|a comps]; [done|]. intros _ Hall.
  inversion Hall as [|? ? Ha _]; subst.
  apply component_spec in Ha as (_ & Ha & _).
  destruct comps; simpl; [done|]. by destruct a.
Qed.

Lemma dirname_cons c0 rest :
  dirname (String c0 rest) =
  match drop_while (λ c, negb (is_slash c))
          (drop_while is_slash (rev (String.list_ascii_of_string rest))) with
  | [] => if is_slash c0 then "/" else "."
  | _ :: before =>
      match before with
      | [] => if is_slash c0 then "//" else String c0 EmptyString
      | _ => String c0 (String.string_of_list_ascii (rev before))
      end
  end.
Proof. reflexivity. Qed.

(** The scan of [dirname] over a base name [c]: nothing is left of it. *)
Lemma scan_base c tail :
  component c = true →
  drop_while (λ c, negb (is_slash c))
    (drop_while is_slash (rev (String.list_ascii_of_string c) ++ tail))
  = drop_while (λ c, negb (is_slash c)) tail.
Proof.
  intros (Hns & Hne & _)%component_spec.
  pose proof (no_slash_chars c Hns) as Hchars.
  apply Forall_rev in Hchars.
  assert (rev (String.list_ascii_of_string c) ≠ []) as Hrev.
  { intros Heq. apply (to_list_nonempty c Hne).
    by rewrite <- (rev_involutive (String.list_ascii_of_string c)), Heq. }
  rewrite drop_while_app_keep by done.
  apply drop_while_app_drop.
  eapply Forall_impl; [exact Hchars|]. intros x Hx. simpl in Hx. by rewrite Hx.
Qed.

(** The parent of a canonical absolute path drops its last component. *)
Lemma dirname_absolute comps c :
  Forall (λ c, component c = true) comps → component c = true →
  dirname (absolute (comps ++ [c])) = absolute comps.
Proof.
  intros Hall Hc. unfold absolute.
  change ("/" +:+ join (comps ++ [c])) with (String "/" (join (comps ++ [c]))).
  rewrite dirname_cons.
  destruct comps as [|a comps].
  - simpl join.
    rewrite <- (app_nil_r (rev (String.list_ascii_of_string c))).
    rewrite (scan_base c []) by done. reflexivity.
  - rewrite join_snoc by done.
    rewrite !to_list_app, !rev_app_distr, <- List.app_assoc.
    rewrite (scan_base c _ Hc).
    change (rev (String.list_ascii_of_string "/")) with ["/"%char].
    change (drop_while (λ c, negb (is_slash c)) (["/"%char] ++ ?l))
      with ("/"%char :: l).
    pose proof (join_nonempty (a :: comps) ltac:(done) Hall) as Hne.
    apply to_list_nonempty in Hne.
    destruct (rev (String.list_ascii_of_string (join (a :: comps)))) eqn:Hrev.
    { exfalso. apply Hne.
      by rewrite <- (rev_involutive (String.list_ascii_of_string _)), Hrev. }
    rewrite <- Hrev, rev_involutive, String.string_of_list_ascii_of_string.
    done.
Qed.

Lemma dirname_root : dirname (absolute []) = absolute [].
Proof. reflexivity. Qed.

Lemma slength_app (s t : string) :
  String.length (s +:+ t) = String.length s + String.length t.
Proof. induction s as [|c s IH]; [done|]. rewrite sapp_cons. simpl. by rewrite IH. Qed.

(** Canonical paths with different numbers of components differ. *)
Lemma absolute_inj_length comps comps' :
  Forall (λ c, component c = true) comps →
  Forall (λ c, component c = true) comps' →
  absolute comps = absolute comps' → length comps = length comps'.
Proof.
  intros H1 H2 Heq. by rewrite <- (depth_absolute comps), Heq, depth_absolute.
Qed.

Lemma absolute_snoc_ne comps c :
  Forall (λ c, component c = true) comps → component c = true →
  absolute comps ≠ absolute (comps ++ [c]).
Proof.
  intros Hall Hc Heq. apply absolute_inj_length in Heq; [|done|].
  - rewrite length_app in Heq. simpl in Heq. lia.
  - apply Forall_app. split; [done|]. by constructor.
Qed.

(** *** Normalisation and [resolve] *)

Lemma norm_step_empty b res : norm_step b res "" = res.
Proof. reflexivity. Qed.

Lemma norm_step_component b res seg :
  component seg = true → norm_step b res seg = seg :: res.
Proof.
  intros Hc. apply component_spec in Hc as (_ & H1 & H2 & H3).
  unfold norm_step.
  rewrite bool_decide_eq_false_2 by (by intros [?|?]).
  by rewrite bool_decide_eq_false_2.
Qed.

(** On pieces that are empty or plain components, normalisation only drops
    the empty ones. *)
Lemma foldl_norm_pieces b segs res :
  Forall (λ seg, seg = "" ∨ component seg = true) segs →
  foldl (norm_step b) res segs = rev (filter (λ seg : string, seg ≠ "") segs) ++ res.
Proof.
  intros Hall. revert res.
  induction Hall as [|seg segs Hseg _ IH]; intros res; [done|].
  simpl foldl. destruct Hseg as [->|Hseg].
  - rewrite norm_step_empty, IH. by rewrite filter_cons_False by naive_solver.
  - rewrite norm_step_component, IH by done.
    rewrite filter_cons_True
      by (by apply component_spec in Hseg as (_ & ? & _)).
    simpl rev. by rewrite <- List.app_assoc.
Qed.

Lemma normalizeSegments_pieces b segs :
  Forall (λ seg, seg = "" ∨ component seg = true) segs →
  normalizeSegments b segs = filter (λ seg : string, seg ≠ "") segs.
Proof.
  intros Hall. unfold normalizeSegments.
  by rewrite foldl_norm_pieces, app_nil_r, rev_involutive.
Qed.

Lemma norm_step_canonical res seg :
  no_slash seg = true → Forall (λ c, component c = true) res →
  Forall (λ c, component c = true) (norm_step false res seg).
Proof.
  intros Hns Hres. unfold norm_step.
  case_bool_decide as H1; [done|].
  case_bool_decide as H2.
  - destruct res as [|top res']; [done|].
    inversion Hres; subst. by case_bool_decide.
  - constructor; [|done]. apply component_spec. naive_solver.
Qed.

Lemma foldl_norm_canonical segs res :
  Forall (λ seg, no_slash seg = true) segs →
  Forall (λ c, component c = true) res →
  Forall (λ c, component c = true) (foldl (norm_step false) res segs).
Proof.
  intros Hall. revert res.
  induction Hall as [|seg segs Hseg _ IH]; intros res Hres; [done|].
  simpl. apply IH. by apply norm_step_canonical.
Qed.

Lemma normalizeSegments_canonical segs :
  Forall (λ seg, no_slash seg = true) segs →
  Forall (λ c, component c = true) (normalizeSegments false segs).
Proof.
  intros Hall. unfold normalizeSegments. apply Forall_rev.
  by apply foldl_norm_canonical.
Qed.

Lemma isAbsolute_nonempty p : isAbsolute p = true → p ≠ "".
Proof. by destruct p. Qed.

Lemma resolve_go_absolute cwd paths acc :
  isAbsolute cwd = true → ∃ p, resolve_go (paths ++ [cwd]) acc = (p, true).
Proof.
  intros Hcwd. revert acc.
  induction paths as [|q paths IH]; intros acc; simpl.
  - rewrite bool_decide_eq_false_2 by by apply isAbsolute_nonempty.
    rewrite Hcwd. eauto.
  - case_bool_decide; [apply IH|]. destruct (isAbsolute q); eauto.
Qed.

(** With an absolute working directory, [resolve] yields a canonical
    absolute path. *)
Lemma resolve_canonical cwd args :
  isAbsolute cwd = true →
  ∃ comps, Forall (λ c, component c = true) comps
           ∧ resolve cwd args = absolute comps.
Proof.
  intros Hcwd. unfold resolve.
  destruct (resolve_go_absolute cwd (rev args) "" Hcwd) as [p ->].
  eexists. split; [|reflexivity].
  apply normalizeSegments_canonical, split_pieces.
Qed.

Lemma absolute_isAbsolute comps : isAbsolute (absolute comps) = true.
Proof. reflexivity. Qed.

Lemma split_absolute_pieces comps :
  Forall (λ c, component c = true) comps →
  Forall (λ seg, seg = "" ∨ component seg = true) (split (absolute comps))
  ∧ filter (λ seg : string, seg ≠ "") (split (absolute comps)) = comps.
Proof.
  intros Hall. rewrite split_absolute by done. split.
  - constructor; [by left|]. destruct comps; [by repeat constructor|].
    eapply Forall_impl; [exact Hall|]. naive_solver.
  - rewrite filter_cons_False by naive_solver.
    destruct comps; [done|]. by apply filter_components.
Qed.

(** An absolute value in canonical form passes through [resolve]
    unchanged, whatever the base directory. *)
Lemma resolve_absolute_value cwd dir comps :
  Forall (λ c, component c = true) comps →
  resolve cwd [dir; absolute comps] = absolute comps.
Proof.
  intros Hall. unfold resolve. simpl rev. simpl app.
  unfold resolve_go.
  rewrite bool_decide_eq_false_2 by done.
  rewrite absolute_isAbsolute. simpl negb. cbv iota.
  unfold normalizeString. rewrite split_app_slash.
  destruct (split_absolute_pieces comps Hall) as [Hpieces Hfilter].
  rewrite normalizeSegments_pieces.
  - rewrite filter_app, Hfilter. simpl. by rewrite app_nil_r.
  - apply Forall_app. split; [done|]. by repeat constructor.
Qed.

(** A plain name is appended to the base directory. *)
Lemma resolve_relative_name cwd comps name :
  Forall (λ c, component c = true) comps → component name = true →
  resolve cwd [absolute comps; name] = absolute (comps ++ [name]).
Proof.
  intros Hall Hname. unfold resolve. simpl rev. simpl app.
  pose proof Hname as (Hns & Hne & _)%component_spec.
  assert (isAbsolute name = false) as Hrel.
  { destruct name as [|c name]; [done|]. simpl in *.
    apply andb_true_iff in Hns as [Hc _]. by apply negb_true_iff. }
  unfold resolve_go.
  rewrite bool_decide_eq_false_2 by done. rewrite Hrel.
  rewrite bool_decide_eq_false_2 by done.
  rewrite absolute_isAbsolute. simpl negb. cbv iota.
  unfold normalizeString. rewrite !split_app_slash.
  destruct (split_absolute_pieces comps Hall) as [Hpieces Hfilter].
  rewrite (split_no_slash name) by done.
  rewrite normalizeSegments_pieces.
  - rewrite filter_app, Hfilter. f_equal. f_equal.
    rewrite filter_app. rewrite filter_cons_True by done. done.
  - apply Forall_app. split; [done|].
    constructor; [by right|]. by repeat constructor.
Qed.

End PathFacts.

(** ** One loop iteration, spelled out *)

Section walk_facts.
Context (fs : filesystem) (cwd : string) (cb : callback) (cacheKey : string).

Lemma notFound_eq s :
  notFound cacheKey s
  = (Return JUndefined,
     set_pathCache (<[cacheKey := JUndefined]> (pathCache s)) s, []).
Proof. reflexivity. Qed.

Lemma listing_eq dir s :
  listing fs dir s =
  match readdirCache s !! dir with
  | Some files => (Return files, s, [])
  | None =>
      match fs_readdir fs dir with
      | Some names =>
          let l := fresh (dom (heap s)) in
          let s1 := set_heap (<[l := names]> (heap s)) s in
          (Return l,
           set_readdirCache (addToCache (readdirCache s1) (cacheKeys s1) dir l) s1,
           [EvReaddir dir])
      | None => (Throw (FsError "scandir" dir), s, [EvReaddir dir])
      end
  end.
Proof.
  unfold listing, bind, getCachedReaddir, gets.
  destruct (readdirCache s !! dir) as [files|]; [done|].
  unfold readdirSync, bind, emit.
  by destruct (fs_readdir fs dir) as [names|].
Qed.

Lemma walk_0 dir visited s :
  walk 0 fs cwd cb cacheKey dir visited s = (OutOfFuel, s, []).
Proof. reflexivity. Qed.

Lemma walk_S fuel dir visited s :
  walk (S fuel) fs cwd cb cacheKey dir visited s =
  if bool_decide (dir ∈ visited) then notFound cacheKey s
  else
    match listing fs dir s with
    | (Return files, s1, evs1) =>
        if skipped dir then
          (Return JUndefined,
           set_pathCache (<[cacheKey := JUndefined]> (pathCache s1)) s1,
           EvVisit dir :: evs1)
        else
          let v := (call cb dir files (heap s1)).1 in
          let s2 := set_heap (call cb dir files (heap s1)).2 s1 in
          let evs2 := EvVisit dir :: evs1 ++ [EvCallback dir files v] in
          if truthy v then
            match v with
            | JStr x =>
                let result := JStr (Path.resolve cwd [dir; x]) in
                (Return result,
                 set_pathCache (<[cacheKey := result]> (pathCache s2)) s2, evs2)
            | _ => (Throw ERR_INVALID_ARG_TYPE, s2, evs2)
            end
          else if bool_decide (Path.dirname dir = dir) then
            (Return JUndefined,
             set_pathCache (<[cacheKey := JUndefined]> (pathCache s2)) s2, evs2)
          else
            match walk fuel fs cwd cb cacheKey (Path.dirname dir)
                    ({[dir]} ∪ visited) s2 with
            | (o, s3, evs3) => (o, s3, evs2 ++ evs3)
            end
    | (Throw e, s1, evs1) => (Throw e, s1, EvVisit dir :: evs1)
    | (OutOfFuel, s1, evs1) => (OutOfFuel, s1, EvVisit dir :: evs1)
    end.
Proof.
  simpl walk. case_bool_decide; [done|].
  unfold bind at 1. unfold emit at 1. unfold bind at 1.
  destruct (listing fs dir s) as [[[files|e|] s1] evs1]; [|done..].
  destruct (skipped dir).
  { rewrite notFound_eq. by rewrite app_nil_r. }
  unfold bind at 1. unfold invoke at 1.
  destruct (call cb dir files (heap s1)) as [v h] eqn:Hcall. simpl.
  destruct (truthy v) eqn:Htruthy.
  - destruct v as [|b|x]; simpl; by rewrite ?app_nil_r.
  - case_bool_decide.
    + rewrite notFound_eq. by rewrite ?app_nil_r.
    + destruct (walk fuel fs cwd cb cacheKey (Path.dirname dir)
                  ({[dir]} ∪ visited) (set_heap h s1)) as [[o s3] evs3].
      by rewrite <- List.app_assoc.
Qed.

End walk_facts.

Lemma startStats_eq fs dir s :
  startStats fs dir s =
  match statCache s !! dir with
  | Some stats => (Return stats, s, [])
  | None =>
      match fs_stat fs dir with
      | Some stats =>
          (Return stats,
           set_statCache (addToCache (statCache s) (cacheKeys s) dir stats) s,
           [EvStat dir])
      | None => (Throw (FsError "stat" dir), s, [EvStat dir])
      end
  end.
Proof.
  unfold startStats, bind, getCachedStat, gets.
  destruct (statCache s !! dir) as [stats|]; [done|].
  unfold statSync, bind, emit.
  by destruct (fs_stat fs dir) as [stats|].
Qed.

Lemma locateBlocking_eq fuel fs cwd start cb s :
  locateBlocking fuel fs cwd start cb s =
  let dir := Path.resolve cwd ["."; start] in
  let cacheKey := cacheKeyOf dir cb in
  match pathCache s !! cacheKey with
  | Some value => (Return value, s, [])
  | None =>
      match startStats fs dir s with
      | (Return stats, s1, evs1) =>
          match walk fuel fs cwd cb cacheKey
                  (if isDirectory stats then dir else Path.dirname dir) ∅ s1 with
          | (o, s2, evs2) => (o, s2, evs1 ++ evs2)
          end
      | (Throw e, s1, evs1) => (Throw e, s1, evs1)
      | (OutOfFuel, s1, evs1) => (OutOfFuel, s1, evs1)
      end
  end.
Proof.
  unfold locateBlocking, bind at 1, gets. cbv zeta.
  destruct (pathCache s !! _) as [value|]; [done|].
  unfold bind. simpl.
  destruct (startStats fs _ s) as [[[stats|e|] s1] evs1]; [|done..].
  by destruct (walk fuel _ _ _ _ _ _ _) as [[o s2] evs2].
Qed.

(** What [listing] and [startStats] leave alone. *)
Lemma listing_frame fs dir s o s1 evs1 :
  listing fs dir s = (o, s1, evs1) →
  pathCache s1 = pathCache s ∧ statCache s1 = statCache s
  ∧ o ≠ OutOfFuel ∧ (evs1 = [] ∨ evs1 = [EvReaddir dir]).
Proof.
  rewrite listing_eq.
  destruct (readdirCache s !! dir); [intros [= <- <- <-]; auto|].
  destruct (fs_readdir fs dir); intros [= <- <- <-]; auto.
Qed.

Lemma startStats_frame fs dir s o s1 evs1 :
  startStats fs dir s = (o, s1, evs1) →
  pathCache s1 = pathCache s ∧ readdirCache s1 = readdirCache s
  ∧ heap s1 = heap s ∧ o ≠ OutOfFuel ∧ (evs1 = [] ∨ evs1 = [EvStat dir]).
Proof.
  rewrite startStats_eq.
  destruct (statCache s !! dir); [intros [= <- <- <-]; auto 10|].
  destruct (fs_stat fs dir); intros [= <- <- <-]; auto 10.
Qed.

(** The loop writes the result cache exactly once, on its way out, and only
    when it returns. *)
Lemma walk_pathCache fuel fs cwd cb cacheKey dir visited s o s' evs :
  walk fuel fs cwd cb cacheKey dir visited s = (o, s', evs) →
  pathCache s' =
  match o with
  | Return r => <[cacheKey := r]> (pathCache s)
  | _ => pathCache s
  end.
Proof.
  revert dir visited s o s' evs.
  induction fuel as [|fuel IH]; intros dir visited s o s' evs.
  { rewrite walk_0. by intros [= <- <- <-]. }
  rewrite walk_S. case_bool_decide.
  { rewrite notFound_eq. by intros [= <- <- <-]. }
  destruct (listing fs dir s) as [[[files|e|] s1] evs1] eqn:Hlist;
    apply listing_frame in Hlist as (Hpc & _ & Hfuel & _);
    [|by intros [= <- <- <-]..].
  destruct (skipped dir).
  { intros [= <- <- <-]. simpl. by rewrite Hpc. }
  cbv zeta. destruct (truthy _) eqn:Htruthy.
  - destruct (call cb dir files (heap s1)).1 as [|b|x];
      intros [= <- <- <-]; simpl; by rewrite Hpc.
  - case_bool_decide.
    + intros [= <- <- <-]. simpl. by rewrite Hpc.
    + destruct (walk fuel _ _ _ _ _ _ _) as [[o3 s3] evs3] eqn:Hwalk.
      intros [= <- <- <-]. apply IH in Hwalk. rewrite Hwalk. simpl.
      by rewrite Hpc.
Qed.

(** A call that returns leaves its result under its key. *)
Lemma locateBlocking_cached fuel fs cwd start cb s r s' evs :
  locateBlocking fuel fs cwd start cb s = (Return r, s', evs) →
  pathCache s' !! cacheKeyOf (Path.resolve cwd ["."; start]) cb = Some r.
Proof.
  rewrite locateBlocking_eq. cbv zeta.
  destruct (pathCache s !! _) as [value|] eqn:Hhit.
  { by intros [= <- <- <-]. }
  destruct (startStats fs _ s) as [[[stats|e|] s1] evs1]; [|done..].
  destruct (walk fuel _ _ _ _ _ _ _) as [[o2 s2] evs2] eqn:Hwalk.
  intros [= -> <- <-]. apply walk_pathCache in Hwalk. rewrite Hwalk.
  apply lookup_insert_eq.
Qed.

(** A hit in the result cache: the stored value comes back, nothing is read
    and nothing is called. *)
Lemma locateBlocking_hit fuel fs cwd start cb s r :
  pathCache s !! cacheKeyOf (Path.resolve cwd ["."; start]) cb = Some r →
  locateBlocking fuel fs cwd start cb s = (Return r, s, []).
Proof. intros Hhit. rewrite locateBlocking_eq. cbv zeta. by rewrite Hhit. Qed.

(** C6: two sequential calls with the same start path and the same callback
    return the same result, and the second one is served from the result
    cache before any filesystem access: it records no event at all and
    leaves the state as it was, whatever the filesystem has become. *)
Theorem second_call_is_cached fuel fuel' fs fs' cwd start cb s r s1 evs :
  locateBlocking fuel fs cwd start cb s = (Return r, s1, evs) →
  locateBlocking fuel' fs' cwd start cb s1 = (Return r, s1, [])
  ∧ filter is_fs_read (locateBlocking fuel' fs' cwd start cb s1).2 = []
  ∧ ∀ s2 r2,
      pathCache s2 !! cacheKeyOf (Path.resolve cwd ["."; start]) cb = Some r2 →
      locateBlocking fuel' fs' cwd start cb s2 = (Return r2, s2, []).
Proof.
  intros Hfirst.
  assert (locateBlocking fuel' fs' cwd start cb s1 = (Return r, s1, [])) as Hsecond.
  { apply locateBlocking_hit. by eapply locateBlocking_cached. }
  split_and!; [done|by rewrite Hsecond|].
  intros s2 r2. apply locateBlocking_hit.
Qed.

(** C9: the key is built from the callback's text.  A second callback with
    the same text, whatever it closes over, gets the result cached by the
    first one and is never invoked. *)
Theorem same_text_callbacks_collide fuel fuel' fs fs' cwd start cb1 cb2 s r s1 evs :
  toString cb1 = toString cb2 →
  locateBlocking fuel fs cwd start cb1 s = (Return r, s1, evs) →
  locateBlocking fuel' fs' cwd start cb2 s1 = (Return r, s1, [])
  ∧ filter is_callback (locateBlocking fuel' fs' cwd start cb2 s1).2 = [].
Proof.
  intros Htext Hfirst.
  assert (locateBlocking fuel' fs' cwd start cb2 s1 = (Return r, s1, [])) as Hsecond.
  { apply locateBlocking_hit. unfold cacheKeyOf. rewrite <- Htext.
    by eapply locateBlocking_cached. }
  by rewrite Hsecond.
Qed.

(** ** Events of a walk *)

Lemma iterations_app evs1 evs2 :
  iterations (evs1 ++ evs2) = iterations evs1 + iterations evs2.
Proof. unfold iterations. by rewrite filter_app, length_app. Qed.

Lemma callback_after_listing dir evs1 rest D files v :
  evs1 = [] ∨ evs1 = [EvReaddir dir] →
  EvCallback D files v ∈ EvVisit dir :: evs1 ++ rest →
  EvCallback D files v ∈ rest.
Proof.
  intros [-> | ->]; rewrite elem_of_cons; simpl.
  - by intros [|].
  - rewrite elem_of_cons. by intros [|[|]].
Qed.

Lemma callback_not_in_listing dir evs1 D files v :
  evs1 = [] ∨ evs1 = [EvReaddir dir] →
  EvCallback D files v ∉ EvVisit dir :: evs1.
Proof.
  intros Hevs Hin. rewrite <- (app_nil_r evs1) in Hin.
  apply callback_after_listing in Hin; [|done]. by apply elem_of_nil in Hin.
Qed.

(** A truthy answer ends the walk: its event is the last one, and the
    outcome is that answer resolved against the directory it was given for. *)
Lemma walk_truthy fuel fs cwd cb cacheKey dir visited s o s' evs D files v :
  walk fuel fs cwd cb cacheKey dir visited s = (o, s', evs) →
  EvCallback D files v ∈ evs → truthy v = true →
  (∃ pre, evs = pre ++ [EvCallback D files v])
  ∧ o = match v with
        | JStr x => Return (JStr (Path.resolve cwd [D; x]))
        | _ => Throw ERR_INVALID_ARG_TYPE
        end.
Proof.
  revert dir visited s o s' evs.
  induction fuel as [|fuel IH]; intros dir visited s o s' evs.
  { rewrite walk_0. intros [= <- <- <-] Hin. by apply elem_of_nil in Hin. }
  rewrite walk_S. case_bool_decide.
  { rewrite notFound_eq. intros [= <- <- <-] Hin. by apply elem_of_nil in Hin. }
  destruct (listing fs dir s) as [[[files0|e|] s1] evs1] eqn:Hlist;
    apply listing_frame in Hlist as (_ & _ & _ & Hevs1);
    [|intros [= <- <- <-] Hin; by apply callback_not_in_listing in Hin..].
  destruct (skipped dir).
  { intros [= <- <- <-] Hin. by apply callback_not_in_listing in Hin. }
  cbv zeta. destruct (call cb dir files0 (heap s1)) as [v0 h0]. simpl.
  destruct (truthy v0) eqn:Htruthy.
  - destruct v0 as [|b|x]; intros [= <- <- <-] Hin Hv;
      (apply callback_after_listing in Hin; [|done]);
      apply list_elem_of_singleton in Hin; injection Hin as -> -> ->;
      (split; [by eexists (_ :: _)|done]).
  - case_bool_decide.
    + intros [= <- <- <-] Hin Hv. apply callback_after_listing in Hin; [|done].
      apply list_elem_of_singleton in Hin. injection Hin as -> -> ->. congruence.
    + destruct (walk fuel _ _ _ _ _ _ _) as [[o3 s3] evs3] eqn:Hwalk.
      intros [= <- <- <-] Hin Hv.
      change (EvVisit dir :: evs1 ++ [EvCallback dir files0 v0])
        with ([EvVisit dir] ++ evs1 ++ [EvCallback dir files0 v0]) in *.
      rewrite <- !List.app_assoc in Hin. simpl in Hin.
      apply callback_after_listing in Hin; [|done].
      apply elem_of_cons in Hin as [Hin|Hin].
      { injection Hin as -> -> ->. congruence. }
      destruct (IH _ _ _ _ _ _ Hwalk Hin Hv) as [[pre ->] ->].
      split; [|done].
      exists (([EvVisit dir] ++ evs1 ++ [EvCallback dir files0 v0]) ++ pre).
      by rewrite <- (List.app_assoc _ pre).
Qed.

(** A falsy answer at the root ends the walk with "not found". *)
Lemma walk_root_falsy fuel fs cwd cb cacheKey dir visited s o s' evs files v :
  walk fuel fs cwd cb cacheKey dir visited s = (o, s', evs) →
  EvCallback "/" files v ∈ evs → truthy v = false →
  o = Return JUndefined.
Proof.
  revert dir visited s o s' evs.
  induction fuel as [|fuel IH]; intros dir visited s o s' evs.
  { rewrite walk_0. intros [= <- <- <-] Hin. by apply elem_of_nil in Hin. }
  rewrite walk_S. case_bool_decide.
  { rewrite notFound_eq. by intros [= <- <- <-]. }
  destruct (listing fs dir s) as [[[files0|e|] s1] evs1] eqn:Hlist;
    apply listing_frame in Hlist as (_ & _ & _ & Hevs1);
    [|intros [= <- <- <-] Hin; by apply callback_not_in_listing in Hin..].
  destruct (skipped dir); [by intros [= <- <- <-]|].
  cbv zeta. destruct (call cb dir files0 (heap s1)) as [v0 h0]. simpl.
  destruct (truthy v0) eqn:Htruthy.
  - destruct v0 as [|b|x]; intros [= <- <- <-] Hin Hv;
      (apply callback_after_listing in Hin; [|done]);
      apply list_elem_of_singleton in Hin; simplify_eq; congruence.
  - case_bool_decide as Hroot; [by intros [= <- <- <-]|].
    destruct (walk fuel _ _ _ _ _ _ _) as [[o3 s3] evs3] eqn:Hwalk.
    intros [= <- <- <-] Hin Hv.
    change (EvVisit dir :: evs1 ++ [EvCallback dir files0 v0])
      with ([EvVisit dir] ++ evs1 ++ [EvCallback dir files0 v0]) in *.
    rewrite <- !List.app_assoc in Hin. simpl in Hin.
    apply callback_after_listing in Hin; [|done].
    apply elem_of_cons in Hin as [Hin|Hin]; [|by eapply IH].
    by simplify_eq.
Qed.

Lemma locateBlocking_callback_in_walk fuel fs cwd start cb s o s' evs D files v :
  locateBlocking fuel fs cwd start cb s = (o, s', evs) →
  EvCallback D files v ∈ evs →
  ∃ dir s1 evs1 evs2,
    pathCache s1 = pathCache s
    ∧ walk fuel fs cwd cb (cacheKeyOf (Path.resolve cwd ["."; start]) cb)
        dir ∅ s1 = (o, s', evs2)
    ∧ evs = evs1 ++ evs2 ∧ EvCallback D files v ∈ evs2.
Proof.
  rewrite locateBlocking_eq. cbv zeta.
  destruct (pathCache s !! _) as [value|].
  { intros [= <- <- <-] Hin. by apply elem_of_nil in Hin. }
  destruct (startStats fs _ s) as [[[stats|e|] s1] evs1] eqn:Hstats;
    apply startStats_frame in Hstats as (Hpc & _ & _ & _ & Hevs1).
  - destruct (walk fuel _ _ _ _ _ _ _) as [[o2 s2] evs2] eqn:Hwalk.
    intros [= <- <- <-] Hin. eexists _, s1, evs1, evs2.
    split_and!; [done..|].
    apply elem_of_app in Hin as [Hin|Hin]; [|done].
    destruct Hevs1 as [-> | ->]; [by apply elem_of_nil in Hin|].
    by apply list_elem_of_singleton in Hin.
  - intros [= <- <- <-] Hin.
    destruct Hevs1 as [-> | ->]; [by apply elem_of_nil in Hin|].
    by apply list_elem_of_singleton in Hin.
  - intros [= <- <- <-] Hin.
    destruct Hevs1 as [-> | ->]; [by apply elem_of_nil in Hin|].
    by apply list_elem_of_singleton in Hin.
Qed.

(** C5 (amended): when a callback invocation at directory [D] returns a
    non-empty string [v], the call returns [resolve(D, v)] and that
    invocation is the last thing the call does.  A canonical absolute [v]
    comes back unchanged, whatever the start path, and a plain name is
    appended to [D]. *)
Theorem truthy_answer_is_resolved fuel fs cwd start cb s o s' evs D files v :
  locateBlocking fuel fs cwd start cb s = (o, s', evs) →
  EvCallback D files (JStr v) ∈ evs → v ≠ "" →
  o = Return (JStr (Path.resolve cwd [D; v]))
  ∧ (∃ pre, evs = pre ++ [EvCallback D files (JStr v)])
  ∧ (∀ comps, Forall (λ c, Path.component c = true) comps →
       v = Path.absolute comps → o = Return (JStr v))
  ∧ (∀ comps, Forall (λ c, Path.component c = true) comps →
       D = Path.absolute comps → Path.component v = true →
       o = Return (JStr (Path.absolute (comps ++ [v])))).
Proof.
  intros Hrun Hin Hv.
  destruct (locateBlocking_callback_in_walk _ _ _ _ _ _ _ _ _ _ _ _ Hrun Hin)
    as (dir & s1 & evs1 & evs2 & _ & Hwalk & -> & Hin2).
  assert (truthy (JStr v) = true) as Htruthy.
  { simpl. by rewrite bool_decide_eq_false_2. }
  destruct (walk_truthy _ _ _ _ _ _ _ _ _ _ _ _ _ _ Hwalk Hin2 Htruthy)
    as [[pre ->] ->].
  split_and!.
  - done.
  - exists (evs1 ++ pre). by rewrite List.app_assoc.
  - intros comps Hcomps ->. by rewrite PathFacts.resolve_absolute_value.
  - intros comps Hcomps -> Hname. by rewrite PathFacts.resolve_relative_name.
Qed.

(** C8: when the callback has been invoked at the root and no invocation
    returned a truthy value, the call returns [undefined] (a value, not a
    thrown error) and records it in the result cache under its key. *)
Theorem exhausted_walk_is_not_found fuel fs cwd start cb s o s' evs files v :
  locateBlocking fuel fs cwd start cb s = (o, s', evs) →
  EvCallback "/" files v ∈ evs →
  (∀ D files' v', EvCallback D files' v' ∈ evs → truthy v' = false) →
  o = Return JUndefined
  ∧ pathCache s' !! cacheKeyOf (Path.resolve cwd ["."; start]) cb
    = Some JUndefined.
Proof.
  intros Hrun Hin Hfalsy.
  assert (o = Return JUndefined) as ->.
  { destruct (locateBlocking_callback_in_walk _ _ _ _ _ _ _ _ _ _ _ _ Hrun Hin)
      as (dir & s1 & evs1 & evs2 & _ & Hwalk & -> & Hin2).
    eapply walk_root_falsy; [exact Hwalk|exact Hin2|]. by eapply Hfalsy. }
  split; [done|]. by eapply locateBlocking_cached.
Qed.

(** ** Termination *)

Lemma listing_iterations fs dir s o s1 evs1 :
  listing fs dir s = (o, s1, evs1) → iterations evs1 = 0.
Proof. intros (_ & _ & _ & [-> | ->])%listing_frame; done. Qed.

Lemma iterations_visit dir evs : iterations (EvVisit dir :: evs) = S (iterations evs).
Proof. reflexivity. Qed.

Lemma iterations_callback dir files v : iterations [EvCallback dir files v] = 0.
Proof. reflexivity. Qed.

Lemma iterations_nil : iterations [] = 0.
Proof. reflexivity. Qed.

(** One pass through the loop body, whichever way it leaves: no fuel is
    missing and one iteration is counted, as long as the walk from the
    parent (if it is entered at all) behaves. *)
Lemma walk_S_bound fs cwd cb cacheKey fuel dir visited s n :
  (Path.dirname dir ≠ dir →
   ∀ visited' s',
     (walk fuel fs cwd cb cacheKey (Path.dirname dir) visited' s').1.1 ≠ OutOfFuel
     ∧ iterations (walk fuel fs cwd cb cacheKey (Path.dirname dir) visited' s').2 ≤ n) →
  (walk (S fuel) fs cwd cb cacheKey dir visited s).1.1 ≠ OutOfFuel
  ∧ iterations (walk (S fuel) fs cwd cb cacheKey dir visited s).2 ≤ S n.
Proof.
  intros Hparent. rewrite walk_S.
  case_bool_decide;
    [rewrite notFound_eq; cbn [fst snd]; split; [done|]; rewrite iterations_nil; lia|].
  destruct (listing fs dir s) as [[[files|e|] s1] evs1] eqn:Hlist;
    pose proof (listing_iterations _ _ _ _ _ _ Hlist) as Hiter;
    apply listing_frame in Hlist as (_ & _ & Hnf & _);
    [|cbn [fst snd]; split; [done|]; rewrite iterations_visit, Hiter; lia..].
  destruct (skipped dir).
  { cbn [fst snd]. split; [done|]. rewrite iterations_visit, Hiter. lia. }
  cbv zeta.
  assert (∀ f w, iterations (EvVisit dir :: evs1 ++ [EvCallback dir f w]) = 1) as Hone.
  { intros f w. by rewrite iterations_visit, iterations_app, Hiter, iterations_callback. }
  destruct (truthy _).
  { destruct (call cb dir files (heap s1)).1; cbn [fst snd]; rewrite Hone;
      split; (done || lia). }
  case_bool_decide as Hroot; [cbn [fst snd]; rewrite Hone; split; (done || lia)|].
  specialize (Hparent Hroot ({[dir]} ∪ visited)
                (set_heap (call cb dir files (heap s1)).2 s1)).
  destruct (walk fuel _ _ _ _ _ _ _) as [[o3 s3] evs3]. cbn [fst snd] in *.
  destruct Hparent as [IH1 IH2]. split; [done|].
  change (EvVisit dir :: ?l ++ evs3) with ((EvVisit dir :: l) ++ evs3).
  rewrite iterations_app, Hone. lia.
Qed.

(** From a canonical path with [n] components the loop body is entered at
    most [n + 1] times: more fuel than that is never used up. *)
Lemma walk_bound fs cwd cb cacheKey comps :
  Forall (λ c, Path.component c = true) comps →
  ∀ fuel visited s,
    length comps < fuel →
    (walk fuel fs cwd cb cacheKey (Path.absolute comps) visited s).1.1 ≠ OutOfFuel
    ∧ iterations (walk fuel fs cwd cb cacheKey (Path.absolute comps) visited s).2
      ≤ S (length comps).
Proof.
  induction comps as [|c comps IH] using rev_ind; intros Hcomps fuel visited s Hfuel.
  - destruct fuel as [|fuel]; [simpl in Hfuel; lia|].
    apply walk_S_bound. intros Hne. by rewrite PathFacts.dirname_root in Hne.
  - apply Forall_app in Hcomps as [Hcomps Hc].
    inversion Hc as [|? ? Hc' _]; subst.
    rewrite length_app in *. simpl in *.
    destruct fuel as [|fuel]; [lia|].
    replace (length comps + 1) with (S (length comps)) by lia.
    apply walk_S_bound. intros _ visited' s'.
    rewrite PathFacts.dirname_absolute by done.
    apply IH; [done|lia].
Qed.

Lemma visits_app evs1 evs2 : visits (evs1 ++ evs2) = visits evs1 ++ visits evs2.
Proof. unfold visits. apply omap_app. Qed.

Lemma listing_visits fs dir s o s1 evs1 :
  listing fs dir s = (o, s1, evs1) → visits evs1 = [].
Proof. intros (_ & _ & _ & [-> | ->])%listing_frame; done. Qed.

(** The visited-set guard: a directory already examined in this call ends
    the loop at once. *)
Lemma walk_visited fuel fs cwd cb cacheKey dir visited s :
  dir ∈ visited →
  walk (S fuel) fs cwd cb cacheKey dir visited s = notFound cacheKey s.
Proof. intros Hin. rewrite walk_S. by rewrite bool_decide_eq_true_2. Qed.

(** Each iteration examines the parent of the directory of the one before. *)
Lemma walk_parent_chain fuel fs cwd cb cacheKey dir visited s :
  parent_chain dir (visits (walk fuel fs cwd cb cacheKey dir visited s).2).
Proof.
  revert dir visited s. induction fuel as [|fuel IH]; intros dir visited s.
  { by rewrite walk_0. }
  rewrite walk_S. case_bool_decide; [by rewrite notFound_eq|].
  destruct (listing fs dir s) as [[[files|e|] s1] evs1] eqn:Hlist;
    apply listing_visits in Hlist;
    [|cbn [snd]; change (EvVisit dir :: evs1) with ([EvVisit dir] ++ evs1);
      rewrite visits_app, Hlist; simpl; auto..].
  assert (∀ f w, visits (EvVisit dir :: evs1 ++ [EvCallback dir f w]) = [dir]) as Hone.
  { intros f w. change (EvVisit dir :: ?l) with ([EvVisit dir] ++ l).
    by rewrite !visits_app, Hlist. }
  destruct (skipped dir).
  { cbn [snd]. change (EvVisit dir :: evs1) with ([EvVisit dir] ++ evs1).
    rewrite visits_app, Hlist. simpl. auto. }
  cbv zeta. destruct (truthy _).
  { destruct (call cb dir files (heap s1)).1; cbn [snd]; rewrite Hone; simpl; auto. }
  case_bool_decide as Hroot; [cbn [snd]; rewrite Hone; simpl; auto|].
  specialize (IH (Path.dirname dir) ({[dir]} ∪ visited)
                (set_heap (call cb dir files (heap s1)).2 s1)).
  destruct (walk fuel _ _ _ _ _ _ _) as [[o3 s3] evs3]. cbn [snd] in *.
  change (EvVisit dir :: ?l ++ evs3) with ((EvVisit dir :: l) ++ evs3).
  rewrite visits_app, Hone. simpl. auto.
Qed.

(** Fuel is only a bound: a walk that ends within its fuel ends the same way
    with more. *)
Lemma walk_fuel_mono fuel extra fs cwd cb cacheKey dir visited s :
  (walk fuel fs cwd cb cacheKey dir visited s).1.1 ≠ OutOfFuel →
  walk (fuel + extra) fs cwd cb cacheKey dir visited s
  = walk fuel fs cwd cb cacheKey dir visited s.
Proof.
  revert dir visited s. induction fuel as [|fuel IH]; intros dir visited s.
  { by rewrite walk_0. }
  change (S fuel + extra) with (S (fuel + extra)). rewrite !walk_S.
  case_bool_decide; [done|].
  destruct (listing fs dir s) as [[[files|e|] s1] evs1]; [|done..].
  destruct (skipped dir); [done|]. cbv zeta.
  destruct (truthy _); [done|]. case_bool_decide; [done|].
  intros Hfuel. rewrite IH; [done|].
  by destruct (walk fuel _ _ _ _ _ _ _) as [[o3 s3] evs3].
Qed.

Lemma dirname_canonical comps :
  Forall (λ c, Path.component c = true) comps →
  ∃ comps', Forall (λ c, Path.component c = true) comps'
            ∧ Path.dirname (Path.absolute comps) = Path.absolute comps'
            ∧ length comps' ≤ length comps.
Proof.
  destruct comps as [|c comps _] using rev_ind; intros Hcomps.
  - exists []. by rewrite PathFacts.dirname_root.
  - apply Forall_app in Hcomps as [Hcomps Hc].
    inversion Hc as [|? ? Hc' _]; subst.
    exists comps. rewrite PathFacts.dirname_absolute, length_app by done.
    split_and!; [done..|lia].
Qed.

(** C4: every call terminates.  With an absolute working directory, fuel
    for (depth of the resolved start path) + 1 passes through the loop is
    never used up, and at most that many iterations are recorded. *)
Theorem walk_terminates fuel fs cwd start cb s :
  Path.isAbsolute cwd = true →
  Path.depth (Path.resolve cwd ["."; start]) < fuel →
  (locateBlocking fuel fs cwd start cb s).1.1 ≠ OutOfFuel
  ∧ iterations (locateBlocking fuel fs cwd start cb s).2
    ≤ Path.depth (Path.resolve cwd ["."; start]) + 1
  ∧ ∃ dir, parent_chain dir (visits (locateBlocking fuel fs cwd start cb s).2).
Proof.
  intros Hcwd.
  destruct (PathFacts.resolve_canonical cwd ["."; start] Hcwd)
    as (comps & Hcomps & Hdir).
  rewrite locateBlocking_eq. cbv zeta. rewrite !Hdir.
  rewrite PathFacts.depth_absolute by done. intros Hfuel.
  destruct (pathCache s !! _) as [value|].
  { cbn [fst snd]. split_and!; [done| |by exists ""]. rewrite iterations_nil. lia. }
  destruct (startStats fs _ s) as [[[stats|e|] s1] evs1] eqn:Hstats;
    apply startStats_frame in Hstats as (_ & _ & _ & Hnf & Hevs1);
    assert (iterations evs1 = 0) as Hiter by (by destruct Hevs1 as [-> | ->]);
    assert (visits evs1 = []) as Hvis by (by destruct Hevs1 as [-> | ->]);
    [|cbn [fst snd]; split_and!; [done|lia|exists ""; by rewrite Hvis]..].
  assert (∃ comps', Forall (λ c, Path.component c = true) comps'
            ∧ (if isDirectory stats then Path.absolute comps
               else Path.dirname (Path.absolute comps)) = Path.absolute comps'
            ∧ length comps' ≤ length comps) as (comps' & Hcomps' & -> & Hlen).
  { destruct (isDirectory stats); [by exists comps|by apply dirname_canonical]. }
  pose proof (walk_bound fs cwd cb (cacheKeyOf (Path.absolute comps) cb) comps'
                Hcomps' fuel ∅ s1 ltac:(lia)) as [Hnofuel Hcount].
  pose proof (walk_parent_chain fuel fs cwd cb (cacheKeyOf (Path.absolute comps) cb)
                (Path.absolute comps') ∅ s1) as Hchain.
  destruct (walk fuel _ _ _ _ _ _ _) as [[o2 s2] evs2]. cbn [fst snd] in *.
  split_and!; [done| |].
  - rewrite iterations_app. lia.
  - exists (Path.absolute comps'). by rewrite visits_app, Hvis.
Qed.

(** C7 (amended): when the start path does not exist and neither the result
    cache nor the metadata cache has an entry for it, the failure of
    [statSync] is the outcome of the call; nothing is cached. *)
Theorem missing_start_throws fuel fs cwd start cb s :
  fs_stat fs (Path.resolve cwd ["."; start]) = None →
  pathCache s !! cacheKeyOf (Path.resolve cwd ["."; start]) cb = None →
  statCache s !! Path.resolve cwd ["."; start] = None →
  locateBlocking fuel fs cwd start cb s
  = (Throw (FsError "stat" (Path.resolve cwd ["."; start])), s,
     [EvStat (Path.resolve cwd ["."; start])]).
Proof.
  intros Hmissing Hpath Hstat. rewrite locateBlocking_eq. cbv zeta.
  by rewrite Hpath, startStats_eq, Hstat, Hmissing.
Qed.

(** ** What a walk and a call preserve *)

(** A property of the state kept by the listing step, by the callback's
    heap update and by the write to the result cache is kept by the loop. *)
Lemma walk_preserves (P : state → Prop) fs cwd cb cacheKey :
  (∀ dir s o s1 evs1, P s → listing fs dir s = (o, s1, evs1) → P s1) →
  (∀ dir files s, P s → P (set_heap (call cb dir files (heap s)).2 s)) →
  (∀ v s, P s → P (set_pathCache (<[cacheKey := v]> (pathCache s)) s)) →
  ∀ fuel dir visited s o s' evs,
    P s → walk fuel fs cwd cb cacheKey dir visited s = (o, s', evs) → P s'.
Proof.
  intros Hlisting Hcall Hset.
  induction fuel as [|fuel IH]; intros dir visited s o s' evs HP.
  { rewrite walk_0. by intros [= <- <- <-]. }
  rewrite walk_S. case_bool_decide.
  { rewrite notFound_eq. intros [= <- <- <-]. by apply Hset. }
  destruct (listing fs dir s) as [[[files|e|] s1] evs1] eqn:Hlist;
    apply (Hlisting _ _ _ _ _ HP) in Hlist; [|by intros [= <- <- <-]..].
  destruct (skipped dir).
  { intros [= <- <- <-]. by apply Hset. }
  cbv zeta. pose proof (Hcall dir files s1 Hlist) as HP2.
  destruct (truthy _).
  { destruct (call cb dir files (heap s1)).1; intros [= <- <- <-];
      [done..|exact (Hset _ _ HP2)]. }
  case_bool_decide; [intros [= <- <- <-]; exact (Hset _ _ HP2)|].
  destruct (walk fuel _ _ _ _ _ _ _) as [[o3 s3] evs3] eqn:Hwalk.
  intros [= <- <- <-]. by eapply IH.
Qed.

Lemma locateBlocking_preserves (P : state → Prop) fuel fs cwd start cb :
  (∀ dir s o s1 evs1, P s → startStats fs dir s = (o, s1, evs1) → P s1) →
  (∀ dir s o s1 evs1, P s → listing fs dir s = (o, s1, evs1) → P s1) →
  (∀ dir files s, P s → P (set_heap (call cb dir files (heap s)).2 s)) →
  (∀ key v s, P s → P (set_pathCache (<[key := v]> (pathCache s)) s)) →
  ∀ s o s' evs,
    P s → locateBlocking fuel fs cwd start cb s = (o, s', evs) → P s'.
Proof.
  intros Hstats Hlisting Hcall Hset s o s' evs HP.
  rewrite locateBlocking_eq. cbv zeta.
  destruct (pathCache s !! _); [by intros [= <- <- <-]|].
  destruct (startStats fs _ s) as [[[stats|e|] s1] evs1] eqn:Hstart;
    apply (Hstats _ _ _ _ _ HP) in Hstart; [|by intros [= <- <- <-]..].
  destruct (walk fuel _ _ _ _ _ _ _) as [[o2 s2] evs2] eqn:Hwalk.
  intros [= <- <- <-].
  eapply (walk_preserves P); [exact Hlisting|exact Hcall|apply Hset|exact Hstart|exact Hwalk].
Qed.


(** ** The listing handed to the callback *)

Lemma addToCache_lookup {V} (cache : gmap string V) keys key value :
  (addToCache cache keys key value).1 !! key = Some value.
Proof.
  unfold addToCache. case_bool_decide; [destruct keys|]; apply lookup_insert_eq.
Qed.

Lemma listing_cached fs dir s files s1 evs1 :
  listing fs dir s = (Return files, s1, evs1) → readdirCache s1 !! dir = Some files.
Proof.
  rewrite listing_eq. destruct (readdirCache s !! dir) as [l|] eqn:Hhit.
  { by intros [= <- <- <-]. }
  destruct (fs_readdir fs dir); [|done].
  intros [= <- <- <-]. apply addToCache_lookup.
Qed.

(** An insertion leaves every other key as it was, or evicts it. *)
Lemma addToCache_other {V} (cache : gmap string V) keys key value k :
  k ≠ key →
  (addToCache cache keys key value).1 !! k = cache !! k
  ∨ (addToCache cache keys key value).1 !! k = None.
Proof.
  intros Hne. unfold addToCache.
  case_bool_decide; [destruct keys as [|oldest keys]|]; cbn [fst];
    rewrite lookup_insert_ne by done; auto.
  destruct (decide (oldest = k)) as [->|Hold].
  - right. apply lookup_delete_eq.
  - left. by apply lookup_delete_ne.
Qed.

Lemma listing_other fs dir s o s1 evs1 k :
  listing fs dir s = (o, s1, evs1) → k ≠ dir →
  readdirCache s1 !! k = readdirCache s !! k ∨ readdirCache s1 !! k = None.
Proof.
  rewrite listing_eq. destruct (readdirCache s !! dir).
  { intros [= <- <- <-]. auto. }
  destruct (fs_readdir fs dir); intros [= <- <- <-] Hne; [|auto].
  by apply addToCache_other.
Qed.

(** The rest of a walk does not touch the listing entries of the
    directories already visited, except to evict them. *)
Lemma walk_keeps_visited fuel fs cwd cb cacheKey dir visited s o s' evs k :
  walk fuel fs cwd cb cacheKey dir visited s = (o, s', evs) → k ∈ visited →
  readdirCache s' !! k = readdirCache s !! k ∨ readdirCache s' !! k = None.
Proof.
  revert dir visited s o s' evs.
  induction fuel as [|fuel IH]; intros dir visited s o s' evs.
  { rewrite walk_0. intros [= <- <- <-]. auto. }
  rewrite walk_S. case_bool_decide as Hvisited.
  { rewrite notFound_eq. intros [= <- <- <-]. auto. }
  intros Hrun Hk. assert (k ≠ dir) as Hne by (by intros ->).
  destruct (listing fs dir s) as [[[files|e|] s1] evs1] eqn:Hlist;
    pose proof (listing_other _ _ _ _ _ _ k Hlist Hne) as Hother;
    [|by injection Hrun as <- <- <-..].
  destruct (skipped dir); [by injection Hrun as <- <- <-|].
  cbv zeta in Hrun. destruct (truthy _).
  { destruct (call cb dir files (heap s1)).1; by injection Hrun as <- <- <-. }
  case_bool_decide; [by injection Hrun as <- <- <-|].
  destruct (walk fuel _ _ _ _ _ _ _) as [[o3 s3] evs3] eqn:Hwalk.
  injection Hrun as <- <- <-.
  apply IH in Hwalk; [|set_unfold; auto]. cbn [readdirCache set_heap] in Hwalk.
  destruct Hwalk as [-> | ->]; auto.
Qed.

(** Within a walk: the reference a callback was given for [D] is, at the end
    of the walk, still the one the listing cache holds for [D], unless [D]
    has been evicted. *)
Lemma walk_callback_cached fuel fs cwd cb cacheKey dir visited s o s' evs D files v :
  walk fuel fs cwd cb cacheKey dir visited s = (o, s', evs) →
  EvCallback D files v ∈ evs →
  readdirCache s' !! D = Some files ∨ readdirCache s' !! D = None.
Proof.
  revert dir visited s o s' evs.
  induction fuel as [|fuel IH]; intros dir visited s o s' evs.
  { rewrite walk_0. intros [= <- <- <-] Hin. by apply elem_of_nil in Hin. }
  rewrite walk_S. case_bool_decide.
  { rewrite notFound_eq. intros [= <- <- <-] Hin. by apply elem_of_nil in Hin. }
  destruct (listing fs dir s) as [[[files0|e|] s1] evs1] eqn:Hlist;
    pose proof Hlist as (_ & _ & _ & Hevs1)%listing_frame;
    [|intros [= <- <- <-] Hin; by apply callback_not_in_listing in Hin..].
  apply listing_cached in Hlist.
  destruct (skipped dir).
  { intros [= <- <- <-] Hin. by apply callback_not_in_listing in Hin. }
  cbv zeta. destruct (call cb dir files0 (heap s1)) as [v0 h0]. cbn [fst snd].
  destruct (truthy v0).
  { destruct v0; intros [= <- <- <-] Hin;
      (apply callback_after_listing in Hin; [|done]);
      apply list_elem_of_singleton in Hin; injection Hin as -> -> ->; by left. }
  case_bool_decide.
  { intros [= <- <- <-] Hin. apply callback_after_listing in Hin; [|done].
    apply list_elem_of_singleton in Hin. injection Hin as -> -> ->. by left. }
  destruct (walk fuel _ _ _ _ _ _ _) as [[o3 s3] evs3] eqn:Hwalk.
  intros [= <- <- <-] Hin.
  change (EvVisit dir :: evs1 ++ [EvCallback dir files0 v0])
    with ([EvVisit dir] ++ evs1 ++ [EvCallback dir files0 v0]) in Hin.
  rewrite <- !List.app_assoc in Hin. simpl in Hin.
  apply callback_after_listing in Hin; [|done].
  apply elem_of_cons in Hin as [Hin|Hin]; [|by eapply IH].
  injection Hin as -> -> ->.
  eapply (walk_keeps_visited _ _ _ _ _ _ _ _ _ _ _ dir) in Hwalk;
    [|set_unfold; auto].
  cbn [readdirCache set_heap] in Hwalk. rewrite Hlist in Hwalk.
  destruct Hwalk as [-> | ->]; auto.
Qed.

(** The same for a whole call, and what a later lookup then does. *)
Lemma callback_listing_stays_cached fuel fs fs' cwd start cb s o s' evs D files v :
  locateBlocking fuel fs cwd start cb s = (o, s', evs) →
  EvCallback D files v ∈ evs →
  (readdirCache s' !! D = Some files ∨ readdirCache s' !! D = None)
  ∧ (readdirCache s' !! D = Some files →
     listing fs' D s' = (Return files, s', [])).
Proof.
  intros Hrun Hin.
  destruct (locateBlocking_callback_in_walk _ _ _ _ _ _ _ _ _ _ _ _ Hrun Hin)
    as (dir & s1 & evs1 & evs2 & _ & Hwalk & -> & Hin2).
  split; [by eapply walk_callback_cached|].
  intros Hcached. by rewrite listing_eq, Hcached.
Qed.







(** ** The skip check *)

Lemma pop_snoc segs seg : Path.pop (segs ++ [seg]) = Some seg.
Proof. unfold Path.pop. apply last_snoc. Qed.

(** Line 83 yields the name of the parent of [dir]: for a canonical path
    whose last two components are [parent] and [name], the test looks up
    [parent] and does not depend on [name]. *)
Lemma skipped_parent comps parent name :
  Forall (λ c, Path.component c = true) comps →
  Path.component parent = true → Path.component name = true →
  skipped (Path.absolute (comps ++ [parent; name]))
  = bool_decide (parent ∈ SKIP_DIRS).
Proof.
  intros Hcomps Hparent Hname. unfold skipped, dirName.
  assert (Forall (λ c, Path.component c = true) (comps ++ [parent])) as Hall.
  { apply Forall_app. split; [done|]. by constructor. }
  replace (comps ++ [parent; name]) with ((comps ++ [parent]) ++ [name])
    by by rewrite <- List.app_assoc.
  rewrite PathFacts.dirname_absolute, PathFacts.split_absolute by done.
  destruct (comps ++ [parent]) as [|c0 rest] eqn:Heq; [by destruct comps|].
  rewrite <- Heq.
  change ("" :: comps ++ [parent]) with (("" :: comps) ++ [parent]).
  by rewrite pop_snoc.
Qed.

(** A directory directly under the root is never skipped, whatever its
    name. *)
Lemma skipped_top name :
  Path.component name = true → skipped (Path.absolute [name]) = false.
Proof.
  intros Hname. unfold skipped, dirName.
  change [name] with ([] ++ [name]).
  rewrite (PathFacts.dirname_absolute [] name) by done. reflexivity.
Qed.

(** C1 (evaluation): the skip test looks at the parent's name.  Started in
    [/proj/node_modules], the callback is invoked for that directory and for
    its ancestors; started in [/proj/node_modules/pkg], whose name is not in
    the skip set and which holds the wanted entry, the walk is abandoned
    before the first invocation and "not found" is returned. *)
Theorem skip_check_uses_parent_name :
  invoked (locateBlocking 10 fs_project "/" "/proj/node_modules"
             (cb_never "") init).2
  = ["/proj/node_modules"; "/proj"; "/"]
  ∧ (locateBlocking 10 fs_project "/" "/proj/node_modules/pkg"
       (cb_includes "index.js") init).1.1 = Return JUndefined
  ∧ invoked (locateBlocking 10 fs_project "/" "/proj/node_modules/pkg"
               (cb_includes "index.js") init).2 = []
  ∧ skipped "/proj/node_modules" = false
  ∧ skipped "/proj/node_modules/pkg" = true.
Proof. vm_compute. done. Qed.

(** ** The stores and their bound *)

(** The result cache only grows: a call never removes an entry from it. *)
Lemma pathCache_never_evicts fuel fs cwd start cb s o s' evs :
  locateBlocking fuel fs cwd start cb s = (o, s', evs) →
  pathCache s ⊆ pathCache s'.
Proof.
  rewrite locateBlocking_eq. cbv zeta.
  destruct (pathCache s !! _) as [value|] eqn:Hhit.
  { by intros [= <- <- <-]. }
  destruct (startStats fs _ s) as [[[stats|e|] s1] evs1] eqn:Hstats;
    apply startStats_frame in Hstats as (Hpc & _);
    [|intros [= <- <- <-]; by rewrite Hpc..].
  destruct (walk fuel _ _ _ _ _ _ _) as [[o2 s2] evs2] eqn:Hwalk.
  intros [= <- <- <-]. apply walk_pathCache in Hwalk. rewrite Hwalk, Hpc.
  destruct o2; [|done..]. by apply insert_subseteq.
Qed.

(** Every call that misses the result cache and returns adds one entry,
    whatever the size of the cache. *)
Lemma pathCache_grows fuel fs cwd start cb s r s' evs :
  pathCache s !! cacheKeyOf (Path.resolve cwd ["."; start]) cb = None →
  locateBlocking fuel fs cwd start cb s = (Return r, s', evs) →
  size (pathCache s') = S (size (pathCache s)).
Proof.
  intros Hmiss. rewrite locateBlocking_eq. cbv zeta. rewrite Hmiss.
  destruct (startStats fs _ s) as [[[stats|e|] s1] evs1] eqn:Hstats;
    apply startStats_frame in Hstats as (Hpc & _); [|done..].
  destruct (walk fuel _ _ _ _ _ _ _) as [[o2 s2] evs2] eqn:Hwalk.
  intros [= -> <- <-]. apply walk_pathCache in Hwalk. rewrite Hwalk, Hpc.
  by apply map_size_insert_None.
Qed.

(** C2 (evaluation): 101 calls with 101 different start paths leave 101
    entries in the result cache; nothing was evicted, the first key is still
    there. *)
Theorem pathCache_exceeds_capacity :
  size (pathCache (flat_run 101)) = 101
  ∧ MAX_CACHE_SIZE < size (pathCache (flat_run 101))
  ∧ pathCache (flat_run 101) !! cacheKeyOf (flat_path 0) (cb_never "")
    = Some JUndefined.
Proof. vm_compute. split_and!; [done|lia|done]. Qed.

(** A store that is the only one to go through [addToCache]: [cacheKeys]
    then lists exactly its keys, oldest first, and an insertion at capacity
    drops the oldest of them. *)
Lemma addToCache_alone {V} (cache : gmap string V) keys key value :
  NoDup keys → dom cache = list_to_set keys → key ∉ keys →
  NoDup (addToCache cache keys key value).2
  ∧ dom (addToCache cache keys key value).1
    = list_to_set (addToCache cache keys key value).2
  ∧ (addToCache cache keys key value).2
    = (if bool_decide (MAX_CACHE_SIZE ≤ length keys) then tail keys else keys)
      ++ [key].
Proof.
  intros Hnodup Hdom Hfresh.
  assert (size cache = length keys) as Hsize.
  { by rewrite <- size_dom, Hdom, size_list_to_set. }
  unfold addToCache. rewrite Hsize.
  case_bool_decide as Hfull.
  - destruct keys as [|oldest keys].
    { unfold MAX_CACHE_SIZE in Hfull. simpl in Hfull. lia. }
    apply NoDup_cons in Hnodup as [Hold Hnodup].
    apply not_elem_of_cons in Hfresh as [Hne Hfresh].
    cbn [fst snd tail]. split_and!; [|..|done].
    + apply NoDup_app. split_and!; [done| |apply NoDup_singleton].
      intros x Hx ->%list_elem_of_singleton. done.
    + rewrite dom_insert_L, dom_delete_L, Hdom, list_to_set_app_L.
      apply set_eq. intros x. simpl.
      rewrite !elem_of_union, elem_of_difference, !elem_of_union,
        !elem_of_singleton, elem_of_list_to_set, elem_of_empty.
      split.
      * intros [->|[[->|Hx] Hne']]; [by right; left|done|by left].
      * intros [Hx|[->|[]]]; [|by left].
        right. split; [by right|]. by intros ->.
  - cbn [fst snd]. split_and!; [|..|done].
    + apply NoDup_app. split_and!; [done| |apply NoDup_singleton].
      intros x Hx ->%list_elem_of_singleton. done.
    + rewrite dom_insert_L, Hdom, list_to_set_app_L. simpl.
      by rewrite (right_id_L ∅ (∪)), (comm_L (∪)).
Qed.

(** [addToCache] on a full store whose oldest recorded key is one of its
    own: that key goes, the size stays at the capacity. *)
Lemma addToCache_own_head {V} (cache : gmap string V) oldest keys key value :
  size cache = MAX_CACHE_SIZE → is_Some (cache !! oldest) → cache !! key = None →
  addToCache cache (oldest :: keys) key value
  = (<[key := value]> (delete oldest cache), keys ++ [key])
  ∧ size (addToCache cache (oldest :: keys) key value).1 = MAX_CACHE_SIZE.
Proof.
  intros Hsize [v Hold] Hnew. unfold addToCache.
  rewrite bool_decide_eq_true_2 by lia. split; [done|]. cbn [fst].
  rewrite map_size_insert_None.
  - rewrite map_size_delete, Hold, Hsize. reflexivity.
  - rewrite lookup_delete_ne; [done|]. intros ->. by rewrite Hold in Hnew.
Qed.

(** The same insertion when the oldest recorded key was put there by an
    insertion into the other store: nothing is removed and the store
    outgrows the capacity. *)
Lemma addToCache_foreign_head {V} (cache : gmap string V) oldest keys key value :
  size cache = MAX_CACHE_SIZE → cache !! oldest = None → cache !! key = None →
  size (addToCache cache (oldest :: keys) key value).1 = S MAX_CACHE_SIZE
  ∧ ∀ k, is_Some (cache !! k) →
         is_Some ((addToCache cache (oldest :: keys) key value).1 !! k).
Proof.
  intros Hsize Hold Hnew. unfold addToCache.
  rewrite bool_decide_eq_true_2 by lia. cbn [fst].
  rewrite delete_id by done. split.
  - by rewrite map_size_insert_None, Hsize.
  - intros k [v Hk]. exists v. rewrite lookup_insert_ne; [done|].
    intros ->. by rewrite Hk in Hnew.
Qed.

(** C3 (evaluation): [cacheKeys] is one queue for both stores.  After 102
    calls on 102 files of one directory, the 102nd insertion into the
    metadata store took the listing store's key ["/"] off the queue: nothing
    was evicted from the metadata store, which now holds 101 entries, its
    earliest key ["/f1"] included. *)
Theorem shared_queue_breaks_eviction :
  size (statCache (flat_run 101)) = 100
  ∧ statCache (flat_run 101) !! "/f0" = None
  ∧ head (cacheKeys (flat_run 101)) = Some "/"
  ∧ readdirCache (flat_run 101) !! "/" = Some 0
  ∧ size (statCache (flat_run 102)) = 101
  ∧ statCache (flat_run 102) !! "/f1" = Some {| isDirectory := false |}
  ∧ head (cacheKeys (flat_run 102)) = Some "/f1".
Proof. vm_compute. done. Qed.

(** ** Concrete runs *)

Lemma run_eta {A} (x : outcome A * state * list event) o :
  x.1.1 = o → x = (o, x.1.2, x.2).
Proof. intros <-. by destruct x as [[? ?] ?]. Qed.

(** C5 as stated fails for an absolute value that is not canonical:
    [resolve] normalises it. *)
Lemma absolute_answer_is_normalised :
  (locateBlocking 10 fs_scenario "/" "/a/b" (cb_const "/tmp/") init).1.1
  = Return (JStr "/tmp")
  ∧ invoked (locateBlocking 10 fs_scenario "/" "/a/b" (cb_const "/tmp/") init).2
    = ["/a/b"]
  ∧ (call (cb_const "/tmp/") "/a/b" 0 ∅).1 = JStr "/tmp/"
  ∧ Path.isAbsolute "/tmp/" = true
  ∧ JStr "/tmp" ≠ JStr "/tmp/".
Proof. split_and!; [by vm_compute..|done]. Qed.

(** C7 as stated fails once the caches know the path: after a call on
    [/a/b/c/file.txt] the file is deleted; the same call then returns the
    cached "not found" without a filesystem read, and a call with another
    callback walks from the cached metadata and finds [/a/package.json]. *)
Lemma deleted_start_is_served_from_caches :
  let s1 := (locateBlocking 10 fs_scenario "/" "/a/b/c/file.txt"
               (cb_never "") init).1.2 in
  fs_stat fs_scenario_deleted (Path.resolve "/" ["."; "/a/b/c/file.txt"]) = None
  ∧ (locateBlocking 10 fs_scenario_deleted "/" "/a/b/c/file.txt"
       (cb_never "") s1).1.1 = Return JUndefined
  ∧ (locateBlocking 10 fs_scenario_deleted "/" "/a/b/c/file.txt"
       (cb_never "") s1).2 = []
  ∧ (locateBlocking 10 fs_scenario_deleted "/" "/a/b/c/file.txt"
       (cb_includes "package.json") s1).1.1
    = Return (JStr "/a/package.json")
  ∧ filter is_fs_read
      (locateBlocking 10 fs_scenario_deleted "/" "/a/b/c/file.txt"
         (cb_includes "package.json") s1).2 = [].
Proof. vm_compute. done. Qed.

(** C9 on an instance: [() => target] with [target = 'b.js'] gets the
    answer computed for [target = 'a.js']; on its own it would have
    returned [/a/b.js]. *)
Example stale_answer_for_other_closure :
  let s1 := (locateBlocking 10 fs_scenario "/" "/a" (cb_closure "a.js") init).1.2 in
  (locateBlocking 10 fs_scenario "/" "/a" (cb_closure "b.js") s1).1.1
  = Return (JStr "/a/a.js")
  ∧ (locateBlocking 10 fs_scenario "/" "/a" (cb_closure "b.js") s1).2 = []
  ∧ (locateBlocking 10 fs_scenario "/" "/a" (cb_closure "b.js") init).1.1
    = Return (JStr "/a/b.js").
Proof. vm_compute. done. Qed.

(** C10 on an instance: a callback pushes a name onto the list it is given
    for [/a/b/c]; a later call with another callback is handed the same
    array, finds the name in it and returns a path that does not exist. *)
Example pushed_name_is_seen_later :
  let s1 := (locateBlocking 10 fs_scenario "/" "/a/b/c" (cb_push "ghost.json")
               init).1.2 in
  fs_readdir fs_scenario "/a/b/c" = Some ["file.txt"]
  ∧ readdirCache s1 !! "/a/b/c" = Some 0
  ∧ heap s1 !! 0 = Some ["file.txt"; "ghost.json"]
  ∧ (locateBlocking 10 fs_scenario "/" "/a/b/c" (cb_includes "ghost.json") s1).1.1
    = Return (JStr "/a/b/c/ghost.json")
  ∧ (locateBlocking 10 fs_scenario "/" "/a/b/c" (cb_includes "ghost.json") s1).2
    = [EvVisit "/a/b/c"; EvCallback "/a/b/c" 0 (JStr "ghost.json")].
Proof. vm_compute. done. Qed.

(** ** The theorems at concrete inputs *)

Lemma walk_terminates_witness :
  Path.isAbsolute "/" = true
  ∧ Path.depth (Path.resolve "/" ["."; "/a/b/c/file.txt"]) < 5
  ∧ (locateBlocking 5 fs_scenario "/" "/a/b/c/file.txt" (cb_never "") init).1.1
    ≠ OutOfFuel
  ∧ iterations
      (locateBlocking 5 fs_scenario "/" "/a/b/c/file.txt" (cb_never "") init).2
    ≤ Path.depth (Path.resolve "/" ["."; "/a/b/c/file.txt"]) + 1
  ∧ ∃ dir, parent_chain dir
      (visits (locateBlocking 5 fs_scenario "/" "/a/b/c/file.txt"
                 (cb_never "") init).2).
Proof.
  assert (Path.isAbsolute "/" = true) as H1 by reflexivity.
  assert (Path.depth (Path.resolve "/" ["."; "/a/b/c/file.txt"]) < 5) as H2
    by (vm_compute; lia).
  exact (conj H1 (conj H2
    (walk_terminates 5 fs_scenario "/" "/a/b/c/file.txt" (cb_never "") init H1 H2))).
Defined.

Lemma truthy_answer_is_resolved_witness :
  (locateBlocking 10 fs_scenario "/" "/a/b/c/file.txt"
     (cb_includes "package.json") init).1.1
  = Return (JStr (Path.resolve "/" ["/a"; "package.json"]))
  ∧ Path.resolve "/" ["/a"; "package.json"] = "/a/package.json".
Proof.
  split; [|reflexivity].
  refine (proj1 (truthy_answer_is_resolved 10 fs_scenario "/" "/a/b/c/file.txt"
    (cb_includes "package.json") init
    (locateBlocking 10 fs_scenario "/" "/a/b/c/file.txt"
       (cb_includes "package.json") init).1.1
    (locateBlocking 10 fs_scenario "/" "/a/b/c/file.txt"
       (cb_includes "package.json") init).1.2
    (locateBlocking 10 fs_scenario "/" "/a/b/c/file.txt"
       (cb_includes "package.json") init).2
    "/a" 2 "package.json" _ _ _)).
  - apply run_eta. reflexivity.
  - apply (bool_decide_unpack _). vm_compute. exact I.
  - discriminate.
Defined.

Lemma second_call_is_cached_witness :
  locateBlocking 3 fs_scenario_deleted "/" "/a/b/c/file.txt"
    (cb_includes "package.json")
    (locateBlocking 10 fs_scenario "/" "/a/b/c/file.txt"
       (cb_includes "package.json") init).1.2
  = (Return (JStr "/a/package.json"),
     (locateBlocking 10 fs_scenario "/" "/a/b/c/file.txt"
        (cb_includes "package.json") init).1.2, []).
Proof.
  refine (proj1 (second_call_is_cached 10 3 fs_scenario fs_scenario_deleted "/"
    "/a/b/c/file.txt" (cb_includes "package.json") init
    (JStr "/a/package.json")
    (locateBlocking 10 fs_scenario "/" "/a/b/c/file.txt"
       (cb_includes "package.json") init).1.2
    (locateBlocking 10 fs_scenario "/" "/a/b/c/file.txt"
       (cb_includes "package.json") init).2 _)).
  apply run_eta. vm_compute. reflexivity.
Defined.

Lemma same_text_callbacks_collide_witness :
  locateBlocking 10 fs_scenario "/" "/a" (cb_closure "b.js")
    (locateBlocking 10 fs_scenario "/" "/a" (cb_closure "a.js") init).1.2
  = (Return (JStr "/a/a.js"),
     (locateBlocking 10 fs_scenario "/" "/a" (cb_closure "a.js") init).1.2, [])
  ∧ filter is_callback
      (locateBlocking 10 fs_scenario "/" "/a" (cb_closure "b.js")
         (locateBlocking 10 fs_scenario "/" "/a" (cb_closure "a.js") init).1.2).2
    = [].
Proof.
  apply (same_text_callbacks_collide 10 10 fs_scenario fs_scenario "/" "/a"
    (cb_closure "a.js") (cb_closure "b.js") init (JStr "/a/a.js")
    (locateBlocking 10 fs_scenario "/" "/a" (cb_closure "a.js") init).1.2
    (locateBlocking 10 fs_scenario "/" "/a" (cb_closure "a.js") init).2).
  - reflexivity.
  - apply run_eta. vm_compute. reflexivity.
Defined.

Lemma missing_start_throws_witness :
  locateBlocking 10 fs_scenario "/a" "missing/x.txt" (cb_includes "package.json") init
  = (Throw (FsError "stat" (Path.resolve "/a" ["."; "missing/x.txt"])), init,
     [EvStat (Path.resolve "/a" ["."; "missing/x.txt"])])
  ∧ Path.resolve "/a" ["."; "missing/x.txt"] = "/a/missing/x.txt".
Proof.
  split; [|reflexivity].
  apply (missing_start_throws 10 fs_scenario "/a" "missing/x.txt"
    (cb_includes "package.json") init).
  - vm_compute. reflexivity.
  - vm_compute. reflexivity.
  - vm_compute. reflexivity.
Defined.

Lemma exhausted_walk_is_not_found_witness :
  (locateBlocking 10 fs_scenario "/" "/a/b/c/file.txt" (cb_never "") init).1.1
  = Return JUndefined
  ∧ pathCache
      (locateBlocking 10 fs_scenario "/" "/a/b/c/file.txt" (cb_never "") init).1.2
    !! cacheKeyOf (Path.resolve "/" ["."; "/a/b/c/file.txt"]) (cb_never "")
    = Some JUndefined.
Proof.
  assert ((locateBlocking 10 fs_scenario "/" "/a/b/c/file.txt" (cb_never "") init).2
          = [EvStat "/a/b/c/file.txt"; EvVisit "/a/b/c"; EvReaddir "/a/b/c";
             EvCallback "/a/b/c" 0 (JBool false); EvVisit "/a/b";
             EvReaddir "/a/b"; EvCallback "/a/b" 1 (JBool false);
             EvVisit "/a"; EvReaddir "/a"; EvCallback "/a" 2 (JBool false);
             EvVisit "/"; EvReaddir "/"; EvCallback "/" 3 (JBool false)]) as Hevs.
  { vm_compute. reflexivity. }
  apply (exhausted_walk_is_not_found 10 fs_scenario "/" "/a/b/c/file.txt"
    (cb_never "") init
    (locateBlocking 10 fs_scenario "/" "/a/b/c/file.txt" (cb_never "") init).1.1
    (locateBlocking 10 fs_scenario "/" "/a/b/c/file.txt" (cb_never "") init).1.2
    (locateBlocking 10 fs_scenario "/" "/a/b/c/file.txt" (cb_never "") init).2
    3 (JBool false)).
  - apply run_eta. reflexivity.
  - rewrite Hevs. apply (bool_decide_unpack _). vm_compute. exact I.
  - intros D files' v' Hin. rewrite Hevs in Hin. clear Hevs.
    repeat (apply elem_of_cons in Hin as [Hin|Hin];
            [(discriminate Hin || (injection Hin as _ _ ->; reflexivity))|]).
    inversion Hin.
Defined.


(** * Further properties of the code *)

(** ** The two filesystem caches *)

(** X1: what [setCachedStat] stores, [getCachedStat] gives back, and the same
    for [setCachedReaddir] and [getCachedReaddir]: whatever the size of the
    store and the content of [cacheKeys], the entry just written is not the
    one evicted. *)
Theorem set_then_get_cached path stats files s :
  getCachedStat path (setCachedStat path stats s).1.2
  = (Return (Some stats), (setCachedStat path stats s).1.2, [])
  ∧ getCachedReaddir path (setCachedReaddir path files s).1.2
    = (Return (Some files), (setCachedReaddir path files s).1.2, []).
Proof.
  unfold getCachedStat, getCachedReaddir, gets, setCachedStat, setCachedReaddir,
    modify. cbn [fst snd statCache readdirCache set_statCache set_readdirCache].
  by rewrite !addToCache_lookup.
Qed.

Lemma addToCache_queue {V} (cache : gmap string V) keys key value m :
  cache !! key = None →
  length keys ≤ size cache `min` MAX_CACHE_SIZE + m →
  length (addToCache cache keys key value).2
  ≤ size (addToCache cache keys key value).1 `min` MAX_CACHE_SIZE + m.
Proof.
  intros Hfresh Hlen. unfold addToCache.
  case_bool_decide as Hfull; [destruct keys as [|oldest keys]|]; cbn [fst snd].
  - rewrite map_size_insert_None by done.
    unfold MAX_CACHE_SIZE in *. simpl. lia.
  - rewrite map_size_insert_None by (by rewrite lookup_delete_None; right).
    rewrite length_app. simpl in *.
    pose proof (map_size_delete oldest cache) as Hdel.
    destruct (cache !! oldest); simpl in Hdel; rewrite Hdel;
      unfold MAX_CACHE_SIZE in *; lia.
  - rewrite map_size_insert_None by done.
    rewrite length_app. simpl. unfold MAX_CACHE_SIZE in *. lia.
Qed.

Lemma startStats_queue fs dir s o s1 evs1 :
  queue_bounded s → startStats fs dir s = (o, s1, evs1) → queue_bounded s1.
Proof.
  intros Hq. rewrite startStats_eq.
  destruct (statCache s !! dir) eqn:Hmiss; [by intros [= <- <- <-]|].
  destruct (fs_stat fs dir); intros [= <- <- <-]; [|done].
  unfold queue_bounded in *. cbn [cacheKeys statCache readdirCache set_statCache].
  by apply addToCache_queue.
Qed.

Lemma listing_queue fs dir s o s1 evs1 :
  queue_bounded s → listing fs dir s = (o, s1, evs1) → queue_bounded s1.
Proof.
  intros Hq. rewrite listing_eq.
  destruct (readdirCache s !! dir) eqn:Hmiss; [by intros [= <- <- <-]|].
  destruct (fs_readdir fs dir); intros [= <- <- <-]; [|done].
  unfold queue_bounded in *.
  cbn [cacheKeys statCache readdirCache set_readdirCache set_heap].
  rewrite (Nat.add_comm (_ `min` _)). apply addToCache_queue; [done|]. lia.
Qed.

Lemma locateBlocking_queue fuel fs cwd start cb s o s' evs :
  queue_bounded s → locateBlocking fuel fs cwd start cb s = (o, s', evs) →
  queue_bounded s'.
Proof.
  apply (locateBlocking_preserves queue_bounded).
  - intros *. apply startStats_queue.
  - intros *. apply listing_queue.
  - done.
  - done.
Qed.

(** X2: [cacheKeys] stays short.  After any sequence of calls from process
    start, whatever their outcomes, the queue holds at most twice the
    capacity: an insertion lengthens it only while the store it goes to is
    below the capacity. *)
Theorem cacheKeys_bounded calls :
  length (cacheKeys (run_from init calls)) ≤ 2 * MAX_CACHE_SIZE.
Proof.
  assert (queue_bounded (run_from init calls)) as Hq.
  { unfold run_from. generalize init (ltac:(unfold queue_bounded; simpl; lia) : queue_bounded init).
    induction calls as [|c calls IH]; intros s Hs; [done|].
    simpl. apply IH.
    destruct (locateBlocking _ _ _ _ _ s) as [[o s'] evs] eqn:Hrun.
    by eapply locateBlocking_queue. }
  unfold queue_bounded in Hq. lia.
Qed.

(** X3: a store that is the only one to go through [addToCache] keeps the
    bound: if [cacheKeys] lists exactly its keys, without repetition and no
    more than the capacity, the same holds after inserting a new key, and the
    store holds at most [MAX_CACHE_SIZE] entries. *)
Theorem addToCache_alone_bounded {V} (cache : gmap string V) keys key value :
  NoDup keys → dom cache = list_to_set keys →
  length keys ≤ MAX_CACHE_SIZE → key ∉ keys →
  NoDup (addToCache cache keys key value).2
  ∧ dom (addToCache cache keys key value).1
    = list_to_set (addToCache cache keys key value).2
  ∧ length (addToCache cache keys key value).2 ≤ MAX_CACHE_SIZE
  ∧ size (addToCache cache keys key value).1 ≤ MAX_CACHE_SIZE
  ∧ (addToCache cache keys key value).1 !! key = Some value.
Proof.
  intros Hnodup Hdom Hlen Hfresh.
  destruct (addToCache_alone cache keys key value Hnodup Hdom Hfresh)
    as (Hnodup' & Hdom' & Hkeys).
  assert (length (addToCache cache keys key value).2 ≤ MAX_CACHE_SIZE) as Hlen'.
  { rewrite Hkeys, length_app. simpl. case_bool_decide as Hfull.
    - destruct keys; simpl in *; unfold MAX_CACHE_SIZE in *; lia.
    - lia. }
  split_and!; [done..| |apply addToCache_lookup].
  by rewrite <- size_dom, Hdom', size_list_to_set.
Qed.

Lemma addToCache_alone_bounded_witness :
  size (addToCache (<["/a" := 1]> (∅ : gmap string nat)) ["/a"] "/b" 2).1
  ≤ MAX_CACHE_SIZE.
Proof.
  refine (proj1 (proj2 (proj2 (proj2
    (addToCache_alone_bounded (<["/a" := 1]> (∅ : gmap string nat)) ["/a"] "/b" 2
       _ _ _ _))))).
  - apply NoDup_singleton.
  - vm_compute. reflexivity.
  - vm_compute. lia.
  - intros Hin. apply list_elem_of_singleton in Hin. discriminate Hin.
Defined.

(** ** The result cache *)

Lemma locateBlocking_pathCache fuel fs cwd start cb s o s' evs :
  locateBlocking fuel fs cwd start cb s = (o, s', evs) →
  pathCache s' =
  match o with
  | Return r => <[cacheKeyOf (Path.resolve cwd ["."; start]) cb := r]> (pathCache s)
  | _ => pathCache s
  end.
Proof.
  rewrite locateBlocking_eq. cbv zeta.
  destruct (pathCache s !! _) as [value|] eqn:Hhit.
  { intros [= <- <- <-]. by rewrite insert_id. }
  destruct (startStats fs _ s) as [[[stats|e|] s1] evs1] eqn:Hstats;
    apply startStats_frame in Hstats as (Hpc & _);
    [|by intros [= <- <- <-]..].
  destruct (walk fuel _ _ _ _ _ _ _) as [[o2 s2] evs2] eqn:Hwalk.
  intros [= <- <- <-]. apply walk_pathCache in Hwalk. by rewrite Hwalk, Hpc.
Qed.

(** X4: a call writes the result cache at its own key only, and only when it
    returns: after a return the cache is the old one with the returned value
    under the call's key; after a throw it is unchanged, so failures are
    never memoised. *)
Theorem result_cache_written_on_return fuel fs cwd start cb s o s' evs :
  locateBlocking fuel fs cwd start cb s = (o, s', evs) →
  (∀ r, o = Return r →
     pathCache s'
     = <[cacheKeyOf (Path.resolve cwd ["."; start]) cb := r]> (pathCache s))
  ∧ (∀ e, o = Throw e → pathCache s' = pathCache s)
  ∧ (∀ key, key ≠ cacheKeyOf (Path.resolve cwd ["."; start]) cb →
       pathCache s' !! key = pathCache s !! key).
Proof.
  intros Hrun. apply locateBlocking_pathCache in Hrun. split_and!.
  - by intros r ->.
  - by intros e ->.
  - intros key Hne. rewrite Hrun.
    destruct o; [by rewrite lookup_insert_ne|done..].
Qed.

Lemma result_cache_written_on_return_witness :
  pathCache (locateBlocking 10 fs_scenario "/" "/nowhere" (cb_never "") init).1.2
  = pathCache init.
Proof.
  refine (proj1 (proj2 (result_cache_written_on_return 10 fs_scenario "/"
    "/nowhere" (cb_never "") init
    (Throw (FsError "stat" "/nowhere"))
    (locateBlocking 10 fs_scenario "/" "/nowhere" (cb_never "") init).1.2
    (locateBlocking 10 fs_scenario "/" "/nowhere" (cb_never "") init).2 _))
    (FsError "stat" "/nowhere") eq_refl).
  apply run_eta. vm_compute. reflexivity.
Defined.

Lemma run_from_pathCache s calls : pathCache s ⊆ pathCache (run_from s calls).
Proof.
  unfold run_from. revert s. induction calls as [|c calls IH]; intros s; [done|].
  simpl. etrans; [|apply IH].
  destruct (locateBlocking _ _ _ _ _ s) as [[o s'] evs] eqn:Hrun.
  by eapply pathCache_never_evicts.
Qed.

(** X5: a returned result stays.  Once a call has returned [r], every later
    call with the same working directory, start path and callback returns
    [r] with no event and no change of state, whatever calls were made in
    between and whatever the filesystem has become. *)
Theorem result_survives_other_calls fuel fuel' fs fs' cwd start cb s r s1 evs calls :
  locateBlocking fuel fs cwd start cb s = (Return r, s1, evs) →
  locateBlocking fuel' fs' cwd start cb (run_from s1 calls)
  = (Return r, run_from s1 calls, []).
Proof.
  intros Hfirst. apply locateBlocking_hit.
  eapply lookup_weaken; [|apply run_from_pathCache].
  by eapply locateBlocking_cached.
Qed.

Lemma result_survives_other_calls_witness :
  (locateBlocking 10 fs_scenario_deleted "/" "/a/b/c/file.txt" (cb_never "")
     (run_from
        (locateBlocking 10 fs_scenario "/" "/a/b/c/file.txt" (cb_never "") init).1.2
        [ {| inv_fuel := 10; inv_fs := fs_scenario; inv_cwd := "/";
             inv_start := "/a/b"; inv_callback := cb_includes "package.json" |} ])).1.1
  = Return JUndefined.
Proof.
  rewrite (result_survives_other_calls 10 10 fs_scenario fs_scenario_deleted "/"
    "/a/b/c/file.txt" (cb_never "") init JUndefined
    (locateBlocking 10 fs_scenario "/" "/a/b/c/file.txt" (cb_never "") init).1.2
    (locateBlocking 10 fs_scenario "/" "/a/b/c/file.txt" (cb_never "") init).2).
  - reflexivity.
  - apply run_eta. vm_compute. reflexivity.
Defined.

(** ** Failures *)





(** ** The events of a call *)

Lemma walk_has_trace fuel fs cwd cb cacheKey dir visited s :
  walk_trace (walk fuel fs cwd cb cacheKey dir visited s).2.
Proof.
  revert dir visited s. induction fuel as [|fuel IH]; intros dir visited s.
  { rewrite walk_0. constructor. }
  rewrite walk_S. case_bool_decide; [rewrite notFound_eq; constructor|].
  destruct (listing fs dir s) as [[[files|e|] s1] evs1] eqn:Hlist;
    apply listing_frame in Hlist as (_ & _ & _ & Hevs1);
    [|by constructor..].
  destruct (skipped dir); [by constructor|]. cbv zeta.
  destruct (truthy _).
  { destruct (call cb dir files (heap s1)).1; cbn [snd];
      apply trace_step; (done || constructor). }
  case_bool_decide; [apply trace_step; (done || constructor)|].
  specialize (IH (Path.dirname dir) ({[dir]} ∪ visited)
                (set_heap (call cb dir files (heap s1)).2 s1)).
  destruct (walk fuel _ _ _ _ _ _ _) as [[o3 s3] evs3]. cbn [snd] in *.
  cbn [app]. rewrite <- List.app_assoc. cbn [app]. by apply trace_step.
Qed.

Lemma trace_no_stat evs : walk_trace evs → filter is_stat evs = [].
Proof.
  induction 1 as [|dir reads Hreads|dir reads files v rest Hreads _ IH].
  - done.
  - by destruct Hreads as [-> | ->].
  - change (EvVisit dir :: ?l) with ([EvVisit dir] ++ l).
    change (EvCallback dir files v :: rest)
      with ([EvCallback dir files v] ++ rest).
    rewrite !filter_app, IH. by destruct Hreads as [-> | ->].
Qed.

Lemma trace_reads evs :
  walk_trace evs → length (filter is_fs_read evs) ≤ iterations evs.
Proof.
  induction 1 as [|dir reads Hreads|dir reads files v rest Hreads _ IH].
  - done.
  - destruct Hreads as [-> | ->]; unfold iterations; simpl; lia.
  - change (EvVisit dir :: ?l) with ([EvVisit dir] ++ l).
    change (EvCallback dir files v :: rest)
      with ([EvCallback dir files v] ++ rest).
    rewrite !iterations_app, !filter_app, !length_app.
    destruct Hreads as [-> | ->]; unfold iterations in *; simpl in *; lia.
Qed.

Lemma trace_invoked evs :
  walk_trace evs →
  visits evs = invoked evs ∨ ∃ dir, visits evs = invoked evs ++ [dir].
Proof.
  induction 1 as [|dir reads Hreads|dir reads files v rest Hreads _ IH].
  - by left.
  - right. exists dir. by destruct Hreads as [-> | ->].
  - assert (visits (EvVisit dir :: reads ++ EvCallback dir files v :: rest)
            = dir :: visits rest) as ->.
    { by destruct Hreads as [-> | ->]. }
    assert (invoked (EvVisit dir :: reads ++ EvCallback dir files v :: rest)
            = dir :: invoked rest) as ->.
    { by destruct Hreads as [-> | ->]. }
    destruct IH as [-> | [d ->]]; [by left|right; by exists d].
Qed.

Lemma locateBlocking_events fuel fs cwd start cb s :
  ∃ evs1 evs2,
    (locateBlocking fuel fs cwd start cb s).2 = evs1 ++ evs2
    ∧ (evs1 = [] ∨ evs1 = [EvStat (Path.resolve cwd ["."; start])])
    ∧ walk_trace evs2.
Proof.
  rewrite locateBlocking_eq. cbv zeta.
  destruct (pathCache s !! _).
  { exists [], []. split_and!; [done|by left|constructor]. }
  destruct (startStats fs _ s) as [[[stats|e|] s1] evs1] eqn:Hstats;
    apply startStats_frame in Hstats as (_ & _ & _ & _ & Hevs1).
  - pose proof (walk_has_trace fuel fs cwd cb
      (cacheKeyOf (Path.resolve cwd ["."; start]) cb)
      (if isDirectory stats then Path.resolve cwd ["."; start]
       else Path.dirname (Path.resolve cwd ["."; start])) ∅ s1) as Htrace.
    destruct (walk fuel _ _ _ _ _ _ _) as [[o2 s2] evs2]. by exists evs1, evs2.
  - exists evs1, []. rewrite app_nil_r. split_and!; [done..|constructor].
  - exists evs1, []. rewrite app_nil_r. split_and!; [done..|constructor].
Qed.

(** X7: the only path a call ever stats is the resolved start path, and at
    most once; ancestors are listed, never statted. *)
Theorem stat_only_of_start_path fuel fs cwd start cb s :
  filter is_stat (locateBlocking fuel fs cwd start cb s).2 = []
  ∨ filter is_stat (locateBlocking fuel fs cwd start cb s).2
    = [EvStat (Path.resolve cwd ["."; start])].
Proof.
  destruct (locateBlocking_events fuel fs cwd start cb s)
    as (evs1 & evs2 & -> & Hevs1 & Htrace).
  rewrite filter_app, (trace_no_stat _ Htrace), app_nil_r.
  destruct Hevs1 as [-> | ->]; [by left|by right].
Qed.

(** X8: in every call the callback is invoked at most once per examined
    directory, in the order of the walk: the invoked directories are the
    examined ones, except possibly the last examined one (when the walk
    stops before the callback). *)
Theorem callback_follows_walk fuel fs cwd start cb s :
  visits (locateBlocking fuel fs cwd start cb s).2
  = invoked (locateBlocking fuel fs cwd start cb s).2
  ∨ ∃ dir, visits (locateBlocking fuel fs cwd start cb s).2
           = invoked (locateBlocking fuel fs cwd start cb s).2 ++ [dir].
Proof.
  destruct (locateBlocking_events fuel fs cwd start cb s)
    as (evs1 & evs2 & -> & Hevs1 & Htrace).
  assert (visits (evs1 ++ evs2) = visits evs2) as ->.
  { rewrite visits_app. by destruct Hevs1 as [-> | ->]. }
  assert (invoked (evs1 ++ evs2) = invoked evs2) as ->.
  { unfold invoked. rewrite omap_app. by destruct Hevs1 as [-> | ->]. }
  by apply trace_invoked.
Qed.

Lemma walk_S_iterations fs cwd cb cacheKey fuel dir visited s n :
  (Path.dirname dir ≠ dir →
   ∀ visited' s',
     iterations (walk fuel fs cwd cb cacheKey (Path.dirname dir) visited' s').2 ≤ n) →
  iterations (walk (S fuel) fs cwd cb cacheKey dir visited s).2 ≤ S n.
Proof.
  intros Hparent. rewrite walk_S.
  case_bool_decide; [rewrite notFound_eq; cbn [snd]; rewrite iterations_nil; lia|].
  destruct (listing fs dir s) as [[[files|e|] s1] evs1] eqn:Hlist;
    pose proof (listing_iterations _ _ _ _ _ _ Hlist) as Hiter;
    [|cbn [snd]; rewrite iterations_visit, Hiter; lia..].
  destruct (skipped dir).
  { cbn [snd]. rewrite iterations_visit, Hiter. lia. }
  cbv zeta.
  assert (∀ f w, iterations (EvVisit dir :: evs1 ++ [EvCallback dir f w]) = 1) as Hone.
  { intros f w. by rewrite iterations_visit, iterations_app, Hiter, iterations_callback. }
  destruct (truthy _).
  { destruct (call cb dir files (heap s1)).1; cbn [snd]; rewrite Hone; lia. }
  case_bool_decide as Hroot; [cbn [snd]; rewrite Hone; lia|].
  specialize (Hparent Hroot ({[dir]} ∪ visited)
                (set_heap (call cb dir files (heap s1)).2 s1)).
  destruct (walk fuel _ _ _ _ _ _ _) as [[o3 s3] evs3]. cbn [snd] in *.
  rewrite iterations_app, Hone. lia.
Qed.

(** Whatever the fuel, a walk from a canonical path with [n] components
    records at most [n + 1] iterations. *)
Lemma walk_iterations fs cwd cb cacheKey comps :
  Forall (λ c, Path.component c = true) comps →
  ∀ fuel visited s,
    iterations (walk fuel fs cwd cb cacheKey (Path.absolute comps) visited s).2
    ≤ S (length comps).
Proof.
  induction comps as [|c comps IH] using rev_ind; intros Hcomps fuel visited s.
  - destruct fuel as [|fuel]; [rewrite walk_0; cbn [snd]; rewrite iterations_nil; lia|].
    apply walk_S_iterations. intros Hne. by rewrite PathFacts.dirname_root in Hne.
  - apply Forall_app in Hcomps as [Hcomps Hc].
    inversion Hc as [|? ? Hc' _]; subst.
    rewrite length_app. simpl.
    destruct fuel as [|fuel]; [rewrite walk_0; cbn [snd]; rewrite iterations_nil; lia|].
    replace (length comps + 1) with (S (length comps)) by lia.
    apply walk_S_iterations. intros _ visited' s'.
    rewrite PathFacts.dirname_absolute by done. by apply IH.
Qed.

(** X9: a call reads the filesystem at most (depth of the resolved start
    path) + 2 times: one [statSync] and one [readdirSync] per examined
    directory, fewer when the caches answer. *)
Theorem filesystem_reads_bounded fuel fs cwd start cb s :
  Path.isAbsolute cwd = true →
  length (filter is_fs_read (locateBlocking fuel fs cwd start cb s).2)
  ≤ Path.depth (Path.resolve cwd ["."; start]) + 2.
Proof.
  intros Hcwd.
  destruct (PathFacts.resolve_canonical cwd ["."; start] Hcwd)
    as (comps & Hcomps & Hdir).
  rewrite locateBlocking_eq. cbv zeta. rewrite !Hdir.
  rewrite PathFacts.depth_absolute by done.
  destruct (pathCache s !! _) as [value|]; [cbn; lia|].
  destruct (startStats fs _ s) as [[[stats|e|] s1] evs1] eqn:Hstats;
    apply startStats_frame in Hstats as (_ & _ & _ & _ & Hevs1);
    assert (length (filter is_fs_read evs1) ≤ 1) as Hone
      by (destruct Hevs1 as [-> | ->]; simpl; lia);
    [|cbn [snd]; lia..].
  assert (∃ comps', Forall (λ c, Path.component c = true) comps'
            ∧ (if isDirectory stats then Path.absolute comps
               else Path.dirname (Path.absolute comps)) = Path.absolute comps'
            ∧ length comps' ≤ length comps) as (comps' & Hcomps' & -> & Hlen).
  { destruct (isDirectory stats); [by exists comps|by apply dirname_canonical]. }
  pose proof (walk_iterations fs cwd cb (cacheKeyOf (Path.absolute comps) cb)
                comps' Hcomps' fuel ∅ s1) as Hiter.
  pose proof (walk_has_trace fuel fs cwd cb (cacheKeyOf (Path.absolute comps) cb)
                (Path.absolute comps') ∅ s1) as Htrace%trace_reads.
  destruct (walk fuel _ _ _ _ _ _ _) as [[o2 s2] evs2]. cbn [snd] in *.
  rewrite filter_app, length_app. lia.
Qed.

Lemma filesystem_reads_bounded_witness :
  length (filter is_fs_read
            (locateBlocking 10 fs_scenario "/" "/a/b/c/file.txt" (cb_never "") init).2)
  ≤ Path.depth (Path.resolve "/" ["."; "/a/b/c/file.txt"]) + 2.
Proof.
  apply (filesystem_reads_bounded 10 fs_scenario "/" "/a/b/c/file.txt"
           (cb_never "") init).
  reflexivity.
Defined.

(** ** Where the walk starts and what it returns *)

Lemma walk_first_visit fuel fs cwd cb cacheKey dir s :
  ∃ rest, visits (walk (S fuel) fs cwd cb cacheKey dir ∅ s).2 = dir :: rest.
Proof.
  rewrite walk_S. rewrite bool_decide_eq_false_2 by apply not_elem_of_empty.
  destruct (listing fs dir s) as [[[files|e|] s1] evs1] eqn:Hlist;
    [|by eexists..].
  destruct (skipped dir); [by eexists|]. cbv zeta.
  destruct (truthy _).
  { destruct (call cb dir files (heap s1)).1; by eexists. }
  case_bool_decide; [by eexists|].
  destruct (walk fuel _ _ _ _ _ _ _) as [[o3 s3] evs3]. by eexists.
Qed.

(** X10: a file as start path is replaced by its containing directory.  On a
    miss of the result cache, with the metadata of the resolved start path
    known (from the cache, else from the filesystem), the first directory
    examined is the path itself if it is a directory and its parent if not,
    and the examined directories go up from there parent by parent. *)
Theorem walk_starts_at_containing_directory fuel fs cwd start cb s stats :
  pathCache s !! cacheKeyOf (Path.resolve cwd ["."; start]) cb = None →
  (statCache s !! Path.resolve cwd ["."; start] = Some stats
   ∨ (statCache s !! Path.resolve cwd ["."; start] = None
      ∧ fs_stat fs (Path.resolve cwd ["."; start]) = Some stats)) →
  head (visits (locateBlocking (S fuel) fs cwd start cb s).2)
  = Some (if isDirectory stats then Path.resolve cwd ["."; start]
          else Path.dirname (Path.resolve cwd ["."; start]))
  ∧ parent_chain
      (if isDirectory stats then Path.resolve cwd ["."; start]
       else Path.dirname (Path.resolve cwd ["."; start]))
      (visits (locateBlocking (S fuel) fs cwd start cb s).2).
Proof.
  intros Hmiss Hstats. rewrite locateBlocking_eq. cbv zeta. rewrite Hmiss.
  rewrite startStats_eq.
  set (dir0 := if isDirectory stats then Path.resolve cwd ["."; start]
               else Path.dirname (Path.resolve cwd ["."; start])).
  assert (∃ s1 evs1, visits evs1 = []
            ∧ match statCache s !! Path.resolve cwd ["."; start] with
              | Some stats0 => (Return stats0, s, [])
              | None =>
                  match fs_stat fs (Path.resolve cwd ["."; start]) with
                  | Some stats0 =>
                      (Return stats0,
                       set_statCache
                         (addToCache (statCache s) (cacheKeys s)
                            (Path.resolve cwd ["."; start]) stats0) s,
                       [EvStat (Path.resolve cwd ["."; start])])
                  | None =>
                      (Throw (FsError "stat" (Path.resolve cwd ["."; start])), s,
                       [EvStat (Path.resolve cwd ["."; start])])
                  end
              end = (Return stats, s1, evs1)) as (s1 & evs1 & Hvis & ->).
  { destruct Hstats as [-> | [-> ->]];
      [by exists s, []|by eexists _, [EvStat _]]. }
  fold dir0.
  pose proof (walk_first_visit fuel fs cwd cb
                (cacheKeyOf (Path.resolve cwd ["."; start]) cb) dir0 s1)
    as [rest Hfirst].
  pose proof (walk_parent_chain (S fuel) fs cwd cb
                (cacheKeyOf (Path.resolve cwd ["."; start]) cb) dir0 ∅ s1)
    as Hchain.
  destruct (walk (S fuel) _ _ _ _ _ _ _) as [[o2 s2] evs2]. cbn [snd] in *.
  rewrite visits_app, Hvis. cbn [app]. split; [by rewrite Hfirst|done].
Qed.

Lemma walk_starts_at_containing_directory_witness :
  head (visits (locateBlocking 1 fs_scenario "/" "/a/b/c/file.txt"
                  (cb_never "") init).2)
  = Some (if isDirectory {| isDirectory := false |}
          then Path.resolve "/" ["."; "/a/b/c/file.txt"]
          else Path.dirname (Path.resolve "/" ["."; "/a/b/c/file.txt"]))
  ∧ Path.dirname (Path.resolve "/" ["."; "/a/b/c/file.txt"]) = "/a/b/c".
Proof.
  split; [|reflexivity].
  refine (proj1 (walk_starts_at_containing_directory 0 fs_scenario "/"
    "/a/b/c/file.txt" (cb_never "") init {| isDirectory := false |} _ _)).
  - vm_compute. reflexivity.
  - right. split; vm_compute; reflexivity.
Defined.

Lemma walk_statCache fuel fs cwd cb cacheKey dir visited s o s' evs :
  walk fuel fs cwd cb cacheKey dir visited s = (o, s', evs) →
  statCache s' = statCache s.
Proof.
  intros Hwalk.
  apply (walk_preserves (λ s0, statCache s0 = statCache s) fs cwd cb cacheKey)
    with (s := s) in Hwalk; [done| | | |done].
  - intros d s0 o0 s1 evs1 HP (_ & -> & _)%listing_frame. done.
  - done.
  - done.
Qed.

Lemma stat_cached_no_stat fuel fs cwd start cb s :
  is_Some (statCache s !! Path.resolve cwd ["."; start]) →
  filter is_stat (locateBlocking fuel fs cwd start cb s).2 = [].
Proof.
  intros [stats Hcached]. rewrite locateBlocking_eq. cbv zeta.
  destruct (pathCache s !! _); [done|].
  rewrite startStats_eq, Hcached.
  pose proof (walk_has_trace fuel fs cwd cb
    (cacheKeyOf (Path.resolve cwd ["."; start]) cb)
    (if isDirectory stats then Path.resolve cwd ["."; start]
     else Path.dirname (Path.resolve cwd ["."; start])) ∅ s) as Htrace%trace_no_stat.
  by destruct (walk fuel _ _ _ _ _ _ _) as [[o2 s2] evs2].
Qed.

(** A call on a start path whose metadata is cached leaves the metadata
    cache as it is. *)
Lemma stat_cached_unchanged fuel fs cwd start cb s :
  is_Some (statCache s !! Path.resolve cwd ["."; start]) →
  statCache (locateBlocking fuel fs cwd start cb s).1.2 = statCache s.
Proof.
  intros [stats Hcached]. rewrite locateBlocking_eq. cbv zeta.
  destruct (pathCache s !! _); [done|].
  rewrite startStats_eq, Hcached.
  destruct (walk fuel _ _ _ _ _ _ _) as [[o2 s2] evs2] eqn:Hwalk.
  by apply walk_statCache in Hwalk.
Qed.

(** X11: the metadata of a start path is read once for as long as the
    metadata cache keeps it.  After a call that missed the result cache and
    did not fail in [statSync], the metadata cache holds the resolved start
    path.  In whatever later state the metadata cache still holds it, a call
    on that start path, with whatever callback and filesystem, does not
    call [statSync] and leaves the metadata cache as it is. *)
Theorem stat_is_memoised fuel fs cwd start cb s o s1 evs :
  pathCache s !! cacheKeyOf (Path.resolve cwd ["."; start]) cb = None →
  locateBlocking fuel fs cwd start cb s = (o, s1, evs) →
  o ≠ Throw (FsError "stat" (Path.resolve cwd ["."; start])) →
  is_Some (statCache s1 !! Path.resolve cwd ["."; start])
  ∧ ∀ s2 fuel' fs' cb',
      is_Some (statCache s2 !! Path.resolve cwd ["."; start]) →
      filter is_stat (locateBlocking fuel' fs' cwd start cb' s2).2 = []
      ∧ statCache (locateBlocking fuel' fs' cwd start cb' s2).1.2 = statCache s2.
Proof.
  intros Hmiss Hrun Hok.
  assert (is_Some (statCache s1 !! Path.resolve cwd ["."; start])) as Hcached.
  { revert Hrun. rewrite locateBlocking_eq. cbv zeta. rewrite Hmiss.
    rewrite startStats_eq.
    destruct (statCache s !! _) as [stats|] eqn:Hold.
    - destruct (walk fuel _ _ _ _ _ _ _) as [[o2 s2] evs2] eqn:Hwalk.
      intros [= <- <- <-]. apply walk_statCache in Hwalk. by rewrite Hwalk, Hold.
    - destruct (fs_stat fs _) as [stats|].
      + destruct (walk fuel _ _ _ _ _ _ _) as [[o2 s2] evs2] eqn:Hwalk.
        intros [= <- <- <-]. apply walk_statCache in Hwalk. rewrite Hwalk.
        cbn [statCache set_statCache]. by rewrite addToCache_lookup.
      + by intros [= <- <- <-]. }
  split; [done|]. intros s2 fuel' fs' cb' Hheld.
  split; [by apply stat_cached_no_stat|by apply stat_cached_unchanged].
Qed.

Lemma stat_is_memoised_witness :
  filter is_stat
    (locateBlocking 10 fs_scenario_deleted "/" "/a/b/c/file.txt"
       (cb_includes "package.json")
       (locateBlocking 10 fs_scenario "/" "/a/b/c/file.txt" (cb_never "") init).1.2).2
  = [].
Proof.
  destruct (stat_is_memoised 10 fs_scenario "/" "/a/b/c/file.txt"
    (cb_never "") init
    (locateBlocking 10 fs_scenario "/" "/a/b/c/file.txt" (cb_never "") init).1.1
    (locateBlocking 10 fs_scenario "/" "/a/b/c/file.txt" (cb_never "") init).1.2
    (locateBlocking 10 fs_scenario "/" "/a/b/c/file.txt" (cb_never "") init).2)
    as [Hheld Hlater].
  - vm_compute. reflexivity.
  - apply run_eta. reflexivity.
  - assert ((locateBlocking 10 fs_scenario "/" "/a/b/c/file.txt" (cb_never "")
               init).1.1 = Return JUndefined) as -> by (vm_compute; reflexivity).
    discriminate.
  - exact (proj1 (Hlater _ 10 fs_scenario_deleted (cb_includes "package.json")
                    Hheld)).
Defined.

Lemma walk_return_shape fuel fs cwd cb cacheKey dir visited s v s' evs :
  walk fuel fs cwd cb cacheKey dir visited s = (Return v, s', evs) →
  v = JUndefined ∨ ∃ d x, v = JStr (Path.resolve cwd [d; x]).
Proof.
  revert dir visited s s' evs.
  induction fuel as [|fuel IH]; intros dir visited s s' evs.
  { by rewrite walk_0. }
  rewrite walk_S. case_bool_decide.
  { rewrite notFound_eq. intros [= <- <- <-]. by left. }
  destruct (listing fs dir s) as [[[files|e|] s1] evs1]; [|done..].
  destruct (skipped dir); [intros [= <- <- <-]; by left|]. cbv zeta.
  destruct (truthy _).
  { destruct (call cb dir files (heap s1)).1 as [|b|x]; [done..|].
    intros [= <- <- <-]. right. by exists dir, x. }
  case_bool_decide; [intros [= <- <- <-]; by left|].
  destruct (walk fuel _ _ _ _ _ _ _) as [[o3 s3] evs3] eqn:Hwalk.
  intros [= -> <- <-]. by eapply IH.
Qed.

(** X12: what a call returns is [undefined] or a canonical absolute path,
    never a relative path or a boolean, and so is everything in the result
    cache: with an absolute working directory, a call preserves this
    property of the result cache and its own return value has it. *)
Theorem results_are_canonical fuel fs cwd start cb s v s' evs :
  Path.isAbsolute cwd = true →
  results_canonical s →
  locateBlocking fuel fs cwd start cb s = (Return v, s', evs) →
  (v = JUndefined
   ∨ ∃ comps, Forall (λ c, Path.component c = true) comps
              ∧ v = JStr (Path.absolute comps))
  ∧ results_canonical s'.
Proof.
  intros Hcwd Hcanon Hrun.
  assert (v = JUndefined
          ∨ ∃ comps, Forall (λ c, Path.component c = true) comps
                     ∧ v = JStr (Path.absolute comps)) as Hv.
  { revert Hrun. rewrite locateBlocking_eq. cbv zeta.
    destruct (pathCache s !! _) as [value|] eqn:Hhit.
    { intros [= <- <- <-]. by eapply Hcanon. }
    destruct (startStats fs _ s) as [[[stats|e|] s1] evs1]; [|done..].
    destruct (walk fuel _ _ _ _ _ _ _) as [[o2 s2] evs2] eqn:Hwalk.
    intros [= -> <- <-].
    apply walk_return_shape in Hwalk as [-> | (d & x & ->)]; [by left|].
    right. destruct (PathFacts.resolve_canonical cwd [d; x] Hcwd)
      as (comps & Hcomps & ->). by exists comps. }
  split; [done|].
  apply locateBlocking_pathCache in Hrun.
  intros key w. rewrite Hrun. rewrite lookup_insert.
  case_decide; [by intros [= <-]|apply Hcanon].
Qed.

Lemma results_are_canonical_witness :
  (Return (JStr "/a/package.json") : outcome jsval)
  = (locateBlocking 10 fs_scenario "/" "/a/b/c/file.txt"
       (cb_includes "package.json") init).1.1
  ∧ results_canonical
      (locateBlocking 10 fs_scenario "/" "/a/b/c/file.txt"
         (cb_includes "package.json") init).1.2.
Proof.
  split; [vm_compute; reflexivity|].
  refine (proj2 (results_are_canonical 10 fs_scenario "/" "/a/b/c/file.txt"
    (cb_includes "package.json") init (JStr "/a/package.json")
    (locateBlocking 10 fs_scenario "/" "/a/b/c/file.txt"
       (cb_includes "package.json") init).1.2
    (locateBlocking 10 fs_scenario "/" "/a/b/c/file.txt"
       (cb_includes "package.json") init).2 _ _ _)).
  - reflexivity.
  - intros key w Hlookup.
    change (pathCache init) with (∅ : gmap string jsval) in Hlookup.
    rewrite lookup_empty in Hlookup. discriminate Hlookup.
  - apply run_eta. vm_compute. reflexivity.
Defined.

(** ** Cached listings and the filesystem *)

Lemma fresh_loc_unused (h : gmap loc (list string)) : h !! fresh (dom h) = None.
Proof. apply not_elem_of_dom, is_fresh. Qed.

Lemma listing_coherent fs dir s o s1 evs1 :
  coherent fs s → listing fs dir s = (o, s1, evs1) →
  coherent fs s1 ∧ heap s ⊆ heap s1
  ∧ ∀ files, o = Return files →
      ∃ names, fs_readdir fs dir = Some names ∧ heap s1 !! files = Some names.
Proof.
  intros Hco. rewrite listing_eq.
  destruct (readdirCache s !! dir) as [files|] eqn:Hcached.
  { intros [= <- <- <-]. split_and!; [done..|]. intros ? [= <-]. by apply Hco. }
  destruct (fs_readdir fs dir) as [names|] eqn:Hfs; intros [= <- <- <-].
  2: { by split_and!. }
  pose proof (fresh_loc_unused (heap s)) as Hfresh.
  split_and!.
  - intros d f. cbn [readdirCache heap set_readdirCache set_heap fst].
    destruct (decide (d = dir)) as [->|Hne].
    + rewrite addToCache_lookup. intros [= <-]. exists names.
      by rewrite lookup_insert_eq.
    + destruct (addToCache_other (readdirCache s) (cacheKeys s) dir
                  (fresh (dom (heap s))) d Hne) as [-> | ->]; [|done].
      intros (names' & Hd & Hf)%Hco. exists names'. split; [done|].
      rewrite lookup_insert_ne; [done|]. intros Heq. by rewrite Heq, Hf in Hfresh.
  - cbn [heap set_readdirCache set_heap]. by apply insert_subseteq.
  - intros ? [= <-]. exists names. split; [done|].
    cbn [heap set_readdirCache set_heap]. apply lookup_insert_eq.
Qed.

Lemma listing_separate own fs dir s o s1 evs1 :
  separate own s → listing fs dir s = (o, s1, evs1) → separate own s1.
Proof.
  intros [Hown Hsep]. rewrite listing_eq.
  destruct (readdirCache s !! dir) eqn:Hcached; [by intros [= <- <- <-]|].
  destruct (fs_readdir fs dir); intros [= <- <- <-]; [|done].
  split; cbn [readdirCache heap set_readdirCache set_heap fst].
  - intros cell Hcell. apply elem_of_dom.
    apply Hown, elem_of_dom in Hcell as [x Hx].
    exists x. eapply lookup_weaken; [exact Hx|].
    apply insert_subseteq, fresh_loc_unused.
  - intros d f. destruct (decide (d = dir)) as [->|Hne].
    + rewrite addToCache_lookup. intros [= <-] Hin.
      apply Hown in Hin. by apply is_fresh in Hin.
    + destruct (addToCache_other (readdirCache s) (cacheKeys s) dir
                  (fresh (dom (heap s))) d Hne) as [-> | ->]; [apply Hsep|done].
Qed.

(** The callback's heap update keeps the cached listings right, and every
    cell that is not the callback's own. *)
Lemma call_coherent own fs cb dir files s :
  writes_only own cb → coherent fs s → separate own s →
  coherent fs (set_heap (call cb dir files (heap s)).2 s)
  ∧ separate own (set_heap (call cb dir files (heap s)).2 s).
Proof.
  intros Hcb Hco [Hown Hsep]. destruct (Hcb dir files (heap s)) as [Hkeep Hdom].
  split; [|split].
  - intros d l Hcached. cbn [readdirCache heap set_heap] in *.
    destruct (Hco d l Hcached) as (names & Hfs & Hheap). exists names.
    split; [done|]. rewrite Hkeep; [done|]. by eapply Hsep.
  - cbn [heap set_heap]. by apply Hdom.
  - intros d l. apply Hsep.
Qed.

Lemma walk_coherent own fuel fs cwd cb cacheKey dir visited s o s' evs :
  writes_only own cb → coherent fs s → separate own s →
  walk fuel fs cwd cb cacheKey dir visited s = (o, s', evs) →
  coherent fs s' ∧ separate own s'
  ∧ ∀ l x, l ∉ own → heap s !! l = Some x → heap s' !! l = Some x.
Proof.
  intros Hcb Hco Hsep.
  apply (walk_preserves
           (λ s0, coherent fs s0 ∧ separate own s0
                  ∧ ∀ l x, l ∉ own → heap s !! l = Some x → heap s0 !! l = Some x)
           fs cwd cb cacheKey).
  - intros d s0 o0 s1 evs1 (Hco0 & Hsep0 & Hkept) Hlist.
    destruct (listing_coherent _ _ _ _ _ _ Hco0 Hlist) as (Hco1 & Hsub1 & _).
    split_and!; [done|by eapply listing_separate|].
    intros l x Hl Hx. eapply lookup_weaken; [|exact Hsub1]. by apply Hkept.
  - intros d f s0 (Hco0 & Hsep0 & Hkept).
    destruct (call_coherent own fs cb d f s0 Hcb Hco0 Hsep0) as [Hco1 Hsep1].
    split_and!; [done..|]. intros l x Hl Hx. cbn [heap set_heap].
    destruct (Hcb d f (heap s0)) as [Hkeep _]. rewrite Hkeep by done.
    by apply Hkept.
  - intros v s0 (Hco0 & Hsep0 & Hkept). split_and!; [|done..].
    intros k l. apply Hco0.
  - by split_and!.
Qed.

Lemma walk_callback_coherent own fuel fs cwd cb cacheKey dir visited s o s' evs
    D files v :
  writes_only own cb → coherent fs s → separate own s →
  walk fuel fs cwd cb cacheKey dir visited s = (o, s', evs) →
  EvCallback D files v ∈ evs →
  ∃ names, fs_readdir fs D = Some names ∧ heap s' !! files = Some names
           ∧ ∃ h, h !! files = Some names ∧ v = (call cb D files h).1.
Proof.
  intros Hcb. revert dir visited s o s' evs.
  induction fuel as [|fuel IH]; intros dir visited s o s' evs Hco Hsep.
  { rewrite walk_0. intros [= <- <- <-] Hin. by apply elem_of_nil in Hin. }
  rewrite walk_S. case_bool_decide.
  { rewrite notFound_eq. intros [= <- <- <-] Hin. by apply elem_of_nil in Hin. }
  destruct (listing fs dir s) as [[[files0|e|] s1] evs1] eqn:Hlist;
    pose proof Hlist as (_ & _ & _ & Hevs1)%listing_frame;
    [|intros [= <- <- <-] Hin; by apply callback_not_in_listing in Hin..].
  destruct (listing_coherent _ _ _ _ _ _ Hco Hlist) as (Hco1 & _ & Hnames).
  pose proof (listing_separate _ _ _ _ _ _ _ Hsep Hlist) as Hsep1.
  destruct (Hnames files0 eq_refl) as (names & Hfs & Hheap).
  assert (files0 ∉ own) as Hfiles0.
  { destruct Hsep1 as [_ Hsep1]. eapply Hsep1. by eapply listing_cached. }
  destruct (call_coherent own fs cb dir files0 s1 Hcb Hco1 Hsep1) as [Hco2 Hsep2].
  assert ((call cb dir files0 (heap s1)).2 !! files0 = Some names) as Hheap2.
  { destruct (Hcb dir files0 (heap s1)) as [Hkeep _]. by rewrite Hkeep. }
  assert (∃ h, h !! files0 = Some names
               ∧ (call cb dir files0 (heap s1)).1 = (call cb dir files0 h).1)
    as Hgiven by (by exists (heap s1)).
  destruct (skipped dir).
  { intros [= <- <- <-] Hin. by apply callback_not_in_listing in Hin. }
  cbv zeta. destruct (call cb dir files0 (heap s1)) as [v0 h0]. cbn [fst snd] in *.
  destruct (truthy v0).
  { destruct v0; intros [= <- <- <-] Hin;
      (apply callback_after_listing in Hin; [|done]);
      apply list_elem_of_singleton in Hin; injection Hin as -> -> ->;
      by exists names. }
  case_bool_decide.
  { intros [= <- <- <-] Hin. apply callback_after_listing in Hin; [|done].
    apply list_elem_of_singleton in Hin. injection Hin as -> -> ->.
    by exists names. }
  destruct (walk fuel _ _ _ _ _ _ _) as [[o3 s3] evs3] eqn:Hwalk.
  intros [= <- <- <-] Hin.
  change (EvVisit dir :: evs1 ++ [EvCallback dir files0 v0])
    with ([EvVisit dir] ++ evs1 ++ [EvCallback dir files0 v0]) in Hin.
  rewrite <- !List.app_assoc in Hin. simpl in Hin.
  apply callback_after_listing in Hin; [|done].
  apply elem_of_cons in Hin as [Hin|Hin]; [|by eapply IH].
  injection Hin as -> -> ->. exists names. split_and!; [done| |done].
  apply (walk_coherent own _ _ _ _ _ _ _ _ _ _ _ Hcb Hco2 Hsep2) in Hwalk
    as (_ & _ & Hkept).
  by apply Hkept.
Qed.

(** X13: the listing cache stays right as long as the callback writes only
    to cells of its own, none of which is a cached listing, and the
    filesystem stays as it is.  If every cached listing is the filesystem's
    listing before a call, the same holds after it; and each callback
    invocation of the call was given an array holding the filesystem's
    listing of its directory, which that array still holds when the call
    ends. *)
Theorem listing_cache_coherent own fuel fs cwd start cb s o s' evs :
  writes_only own cb → separate own s → coherent fs s →
  locateBlocking fuel fs cwd start cb s = (o, s', evs) →
  coherent fs s'
  ∧ ∀ dir files v, EvCallback dir files v ∈ evs →
      ∃ names, fs_readdir fs dir = Some names ∧ heap s' !! files = Some names
               ∧ ∃ h, h !! files = Some names ∧ v = (call cb dir files h).1.
Proof.
  intros Hcb Hsep Hco Hrun. split.
  - revert Hrun. rewrite locateBlocking_eq. cbv zeta.
    destruct (pathCache s !! _); [by intros [= <- <- <-]|].
    destruct (startStats fs _ s) as [[[stats|e|] s1] evs1] eqn:Hstats;
      apply startStats_frame in Hstats as (_ & Hrd & Hheap & _);
      assert (coherent fs s1) as Hco1
        by (intros k l; rewrite Hrd, Hheap; apply Hco);
      assert (separate own s1) as Hsep1
        by (unfold separate; by rewrite Hrd, Hheap);
      [|by intros [= <- <- <-]..].
    destruct (walk fuel _ _ _ _ _ _ _) as [[o2 s2] evs2] eqn:Hwalk.
    intros [= <- <- <-].
    by apply (walk_coherent own _ _ _ _ _ _ _ _ _ _ _ Hcb Hco1 Hsep1) in Hwalk
      as [? _].
  - intros dir files v Hin. revert Hrun. rewrite locateBlocking_eq. cbv zeta.
    destruct (pathCache s !! _).
    { intros [= <- <- <-]. by apply elem_of_nil in Hin. }
    destruct (startStats fs _ s) as [[[stats|e|] s1'] evs1'] eqn:Hstats;
      apply startStats_frame in Hstats as (_ & Hrd & Hheap & _ & Hevs1);
      assert (coherent fs s1') as Hco1
        by (intros k l; rewrite Hrd, Hheap; apply Hco);
      assert (separate own s1') as Hsep1
        by (unfold separate; by rewrite Hrd, Hheap).
    + destruct (walk fuel _ _ _ _ _ _ _) as [[o2 s2] evs2'] eqn:Hwalk'.
      intros [= <- <- Hevs].
      assert (EvCallback dir files v ∈ evs2') as Hin'.
      { rewrite <- Hevs in Hin. apply elem_of_app in Hin as [Hin|Hin]; [|done].
        destruct Hevs1 as [-> | ->]; [by apply elem_of_nil in Hin|].
        by apply list_elem_of_singleton in Hin. }
      by eapply (walk_callback_coherent own).
    + intros [= <- <- Hevs]. rewrite <- Hevs in Hin.
      destruct Hevs1 as [-> | ->]; [by apply elem_of_nil in Hin|].
      by apply list_elem_of_singleton in Hin.
    + intros [= <- <- Hevs]. rewrite <- Hevs in Hin.
      destruct Hevs1 as [-> | ->]; [by apply elem_of_nil in Hin|].
      by apply list_elem_of_singleton in Hin.
Qed.

Lemma listing_cache_coherent_witness :
  let s := set_heap {[0 := []]} init in
  let run := locateBlocking 10 fs_scenario "/" "/a/b/c/file.txt" (cb_seen 0) s in
  coherent fs_scenario run.1.2
  ∧ heap run.1.2 !! 0 = Some ["/a/b/c"; "/a/b"; "/a"; "/"]
  ∧ invoked run.2 = ["/a/b/c"; "/a/b"; "/a"; "/"].
Proof.
  intros s run. split; [|split; vm_compute; reflexivity].
  refine (proj1 (listing_cache_coherent {[0]} 10 fs_scenario "/" "/a/b/c/file.txt"
    (cb_seen 0) s run.1.1 run.1.2 run.2 _ _ _ _)).
  - intros dir files h. split.
    + intros l Hl. cbn [call cb_seen snd]. apply lookup_alter_ne.
      intros <-. apply Hl. by apply elem_of_singleton.
    + intros Hown. cbn [call cb_seen snd]. by rewrite dom_alter_L.
  - split.
    + intros l ->%elem_of_singleton. apply elem_of_dom. exists [].
      apply lookup_singleton_eq.
    + intros dir files Hlookup.
      change (readdirCache s) with (∅ : gmap string loc) in Hlookup.
      rewrite lookup_empty in Hlookup. discriminate Hlookup.
  - intros dir files Hlookup.
    change (readdirCache s) with (∅ : gmap string loc) in Hlookup.
    rewrite lookup_empty in Hlookup. discriminate Hlookup.
  - apply run_eta. reflexivity.
Defined.

(** ** The implementation before the caches *)

Lemma walkOriginal_0 fs cwd cb dir s :
  walkOriginal 0 fs cwd cb dir s = (OutOfFuel, s, []).
Proof. reflexivity. Qed.

Lemma walkOriginal_S fuel fs cwd cb dir s :
  walkOriginal (S fuel) fs cwd cb dir s =
  match fs_readdir fs dir with
  | None => (Throw (FsError "scandir" dir), s, [EvReaddir dir])
  | Some names =>
      let files := fresh (dom (heap s)) in
      let s1 := set_heap (<[files := names]> (heap s)) s in
      let v := (call cb dir files (heap s1)).1 in
      let s2 := set_heap (call cb dir files (heap s1)).2 s1 in
      let evs2 := [EvReaddir dir; EvCallback dir files v] in
      if truthy v then
        match v with
        | JStr x => (Return (JStr (Path.resolve cwd [dir; x])), s2, evs2)
        | _ => (Throw ERR_INVALID_ARG_TYPE, s2, evs2)
        end
      else if bool_decide (dir = Path.dirname dir) then (Return JUndefined, s2, evs2)
      else
        match walkOriginal fuel fs cwd cb (Path.dirname dir) s2 with
        | (o, s3, evs3) => (o, s3, evs2 ++ evs3)
        end
  end.
Proof.
  simpl walkOriginal. unfold bind at 1. unfold readdirSync, bind at 1, emit.
  destruct (fs_readdir fs dir) as [names|]; [|done].
  unfold bind, gets, modify, ret, invoke. cbn [fst snd app].
  destruct (call cb dir _ _) as [v h] eqn:Hcall. cbn [fst snd heap set_heap].
  destruct (truthy v) eqn:Htruthy.
  - destruct v as [|b|x]; simpl; done.
  - case_bool_decide; [done|].
    by destruct (walkOriginal fuel fs cwd cb (Path.dirname dir) _) as [[o3 s3] evs3].
Qed.

Lemma escaladeSyncOriginal_eq fuel fs cwd start cb s :
  escaladeSyncOriginal fuel fs cwd start cb s =
  let dir := Path.resolve cwd ["."; start] in
  match fs_stat fs dir with
  | None => (Throw (FsError "stat" dir), s, [EvStat dir])
  | Some stats =>
      match walkOriginal fuel fs cwd cb
              (if isDirectory stats then dir else Path.dirname dir) s with
      | (o, s2, evs2) => (o, s2, EvStat dir :: evs2)
      end
  end.
Proof.
  unfold escaladeSyncOriginal, bind at 1, statSync, bind at 1, emit. cbv zeta.
  destruct (fs_stat fs _) as [stats|]; [|done]. unfold ret. cbn [app].
  by destruct (walkOriginal fuel _ _ _ _ _) as [[o2 s2] evs2].
Qed.

(** A canonical path none of whose components is a skipped name is never
    abandoned by the skip test. *)
Lemma skipped_clean comps :
  Forall (λ c, Path.component c = true) comps →
  Forall (λ c, c ∉ SKIP_DIRS) comps →
  skipped (Path.absolute comps) = false.
Proof.
  intros Hcomps Hclean.
  destruct comps as [|name comps _] using rev_ind; [done|].
  apply Forall_app in Hcomps as [Hcomps Hname].
  apply Forall_app in Hclean as [Hclean _].
  inversion Hname as [|? ? Hname' _]; subst.
  destruct comps as [|parent comps _] using rev_ind; [by apply skipped_top|].
  apply Forall_app in Hcomps as [Hcomps Hparent].
  apply Forall_app in Hclean as [_ Hparent'].
  inversion Hparent as [|? ? Hp _]; subst.
  inversion Hparent' as [|? ? Hp' _]; subst.
  rewrite <- List.app_assoc. cbn [app].
  rewrite skipped_parent by done. by apply bool_decide_eq_false_2.
Qed.

Lemma observable_app evs1 evs2 :
  observable (evs1 ++ evs2) = observable evs1 ++ observable evs2.
Proof. unfold observable. apply filter_app. Qed.

(** The loop with caches against the loop without, from the same canonical
    directory and with equal heaps, when no listing of the directory or of
    an ancestor is cached and no skipped name lies on the way. *)
Lemma walk_refines_original fs cwd cb cacheKey comps :
  Forall (λ c, Path.component c = true) comps →
  Forall (λ c, c ∉ SKIP_DIRS) comps →
  ∀ fuel visited s sO,
    heap s = heap sO →
    (∀ k, is_Some (readdirCache s !! k) → length comps < Path.depth k) →
    (∀ k, k ∈ visited → length comps < Path.depth k) →
    (walk fuel fs cwd cb cacheKey (Path.absolute comps) visited s).1.1
    = (walkOriginal fuel fs cwd cb (Path.absolute comps) sO).1.1
    ∧ heap (walk fuel fs cwd cb cacheKey (Path.absolute comps) visited s).1.2
      = heap (walkOriginal fuel fs cwd cb (Path.absolute comps) sO).1.2
    ∧ observable (walk fuel fs cwd cb cacheKey (Path.absolute comps) visited s).2
      = (walkOriginal fuel fs cwd cb (Path.absolute comps) sO).2.
Proof.
  induction comps as [|c comps IH] using rev_ind;
    intros Hcomps Hclean fuel visited s sO Hheap Hcache Hvisited.
  all: destruct fuel as [|fuel]; [by rewrite walk_0, walkOriginal_0|].
  all: pose proof (PathFacts.depth_absolute _ Hcomps) as Hdepth.
  all: rewrite walk_S, walkOriginal_S, listing_eq.
  all: rewrite bool_decide_eq_false_2
         by (intros Hin%Hvisited; rewrite Hdepth in Hin; lia).
  all: destruct (readdirCache s !! _) as [l|] eqn:Hlookup;
         [exfalso; assert (is_Some (readdirCache s !! Path.absolute _)) as Hs
            by (by rewrite Hlookup);
          apply Hcache in Hs; rewrite Hdepth in Hs; lia|].
  all: destruct (fs_readdir fs _) as [names|]; [|cbn [fst snd]; by split_and!].
  all: rewrite skipped_clean by done.
  all: cbv zeta; cbn [heap set_readdirCache set_heap]; rewrite <- Hheap.
  all: destruct (call cb _ _ _) as [v h]; cbn [fst snd].
  all: destruct (truthy v) eqn:Htruthy;
         [destruct v; cbn [fst snd heap set_pathCache set_heap];
          split_and!; reflexivity|].
  - rewrite PathFacts.dirname_root. rewrite !bool_decide_eq_true_2 by done.
    cbn [fst snd heap set_pathCache set_heap]. split_and!; reflexivity.
  - apply Forall_app in Hcomps as [Hcomps Hc].
    apply Forall_app in Hclean as [Hclean _].
    inversion Hc as [|? ? Hc' _]; subst.
    rewrite PathFacts.dirname_absolute by done.
    rewrite (bool_decide_eq_false_2 (Path.absolute comps = _))
      by by apply PathFacts.absolute_snoc_ne.
    rewrite (bool_decide_eq_false_2 (_ = Path.absolute comps))
      by (intros Heq; symmetry in Heq; revert Heq;
          by apply PathFacts.absolute_snoc_ne).
    rewrite length_app in Hdepth. simpl in Hdepth.
    match goal with
    | |- context [walk fuel fs cwd cb cacheKey _ ?vis ?st] =>
        match goal with
        | |- context [walkOriginal fuel fs cwd cb _ ?stO] =>
            specialize (IH Hcomps Hclean fuel vis st stO)
        end
    end.
    destruct IH as (IH1 & IH2 & IH3).
    + done.
    + intros k. cbn [readdirCache cacheKeys set_readdirCache set_heap].
      destruct (decide (k = Path.absolute (comps ++ [c]))) as [->|Hne].
      * intros _. rewrite Hdepth. lia.
      * destruct (addToCache_other (readdirCache s) (cacheKeys s)
                    (Path.absolute (comps ++ [c])) (fresh (dom (heap s))) k Hne)
          as [-> | ->].
        -- intros Hk%Hcache. rewrite length_app in Hk. simpl in Hk. lia.
        -- by intros [? ?].
    + intros k [->%elem_of_singleton|Hk%Hvisited]%elem_of_union.
      * rewrite Hdepth. lia.
      * rewrite length_app in Hk. simpl in Hk. lia.
    + destruct (walk fuel _ _ _ _ _ _ _) as [[o3 s3] evs3].
      destruct (walkOriginal fuel _ _ _ _ _) as [[o3' s3'] evs3'].
      cbn [fst snd] in *. split_and!; [done..|].
      rewrite observable_app, IH3. reflexivity.
Qed.

Lemma start_directory_canonical comps (isDir : bool) :
  Forall (λ c, Path.component c = true) comps →
  ∃ comps', Forall (λ c, Path.component c = true) comps'
            ∧ (if isDir then Path.absolute comps
               else Path.dirname (Path.absolute comps)) = Path.absolute comps'
            ∧ length comps' ≤ length comps
            ∧ ∀ c, c ∈ comps' → c ∈ comps.
Proof.
  intros Hcomps. destruct isDir; [by exists comps|].
  destruct comps as [|c comps _] using rev_ind.
  - exists []. by rewrite PathFacts.dirname_root.
  - apply Forall_app in Hcomps as [Hcomps Hc].
    inversion Hc as [|? ? Hc' _]; subst.
    exists comps. rewrite PathFacts.dirname_absolute, length_app by done.
    split_and!; [done..|simpl; lia|]. intros c' Hin. apply elem_of_app. by left.
Qed.

(** X14: the caches do not change what a first call computes.  With an
    absolute working directory, nothing cached for the call (no result, no
    metadata of the start path, no listing) and no [.git] or [node_modules]
    among the components of the resolved start path, the call returns or
    throws exactly what [escaladeSyncOriginal] does, leaves the same heap,
    and makes the same filesystem reads and callback invocations in the same
    order. *)
Theorem cold_call_agrees_with_original fuel fs cwd start cb s :
  Path.isAbsolute cwd = true →
  (∀ seg, seg ∈ Path.split (Path.resolve cwd ["."; start]) → seg ∉ SKIP_DIRS) →
  pathCache s !! cacheKeyOf (Path.resolve cwd ["."; start]) cb = None →
  statCache s !! Path.resolve cwd ["."; start] = None →
  readdirCache s = ∅ →
  (locateBlocking fuel fs cwd start cb s).1.1
  = (escaladeSyncOriginal fuel fs cwd start cb s).1.1
  ∧ heap (locateBlocking fuel fs cwd start cb s).1.2
    = heap (escaladeSyncOriginal fuel fs cwd start cb s).1.2
  ∧ observable (locateBlocking fuel fs cwd start cb s).2
    = (escaladeSyncOriginal fuel fs cwd start cb s).2.
Proof.
  intros Hcwd Hclean Hpath Hstat Hlist.
  destruct (PathFacts.resolve_canonical cwd ["."; start] Hcwd)
    as (comps & Hcomps & Hdir).
  assert (Forall (λ c, c ∉ SKIP_DIRS) comps) as Hclean'.
  { apply Forall_forall. intros c Hc. apply Hclean.
    rewrite Hdir, PathFacts.split_absolute by done.
    destruct comps; [by apply elem_of_nil in Hc|]. by right. }
  rewrite locateBlocking_eq, escaladeSyncOriginal_eq. cbv zeta.
  rewrite Hpath, startStats_eq, Hstat.
  destruct (fs_stat fs _) as [stats|]; [|by split_and!].
  rewrite !Hdir.
  destruct (start_directory_canonical comps (isDirectory stats) Hcomps)
    as (comps' & Hcomps' & -> & _ & Hsub).
  assert (Forall (λ c, c ∉ SKIP_DIRS) comps') as Hclean''.
  { apply Forall_forall. intros c Hc.
    by apply (proj1 (Forall_forall _ _) Hclean'), Hsub. }
  match goal with
  | |- context [walk fuel fs cwd cb ?key _ ∅ ?st] =>
      destruct (walk_refines_original fs cwd cb key comps' Hcomps' Hclean''
                  fuel ∅ st s) as (H1 & H2 & H3)
  end.
  - done.
  - intros k. cbn [readdirCache set_statCache]. rewrite Hlist, lookup_empty.
    by intros [? ?].
  - intros k Hk. by apply not_elem_of_empty in Hk.
  - destruct (walk fuel _ _ _ _ _ _ _) as [[o2 s2] evs2].
    destruct (walkOriginal fuel _ _ _ _ _) as [[o2' s2'] evs2'].
    cbn [fst snd] in *. split_and!; [done..|].
    rewrite observable_app, H3. reflexivity.
Qed.

Lemma cold_call_agrees_with_original_witness :
  (locateBlocking 10 fs_scenario "/" "/a/b/c/file.txt"
     (cb_includes "package.json") init).1.1
  = (escaladeSyncOriginal 10 fs_scenario "/" "/a/b/c/file.txt"
       (cb_includes "package.json") init).1.1
  ∧ (escaladeSyncOriginal 10 fs_scenario "/" "/a/b/c/file.txt"
       (cb_includes "package.json") init).1.1
    = Return (JStr "/a/package.json").
Proof.
  split; [|vm_compute; reflexivity].
  refine (proj1 (cold_call_agrees_with_original 10 fs_scenario "/"
    "/a/b/c/file.txt" (cb_includes "package.json") init _ _ _ _ _)).
  - reflexivity.
  - intros seg Hin.
    assert (Path.split (Path.resolve "/" ["."; "/a/b/c/file.txt"])
            = [""; "a"; "b"; "c"; "file.txt"]) as Hsplit by reflexivity.
    rewrite Hsplit in Hin. clear Hsplit.
    intros Hskip. unfold SKIP_DIRS in Hskip.
    apply elem_of_union in Hskip as [Hskip|Hskip];
      apply elem_of_singleton in Hskip; subst seg;
      repeat (apply elem_of_cons in Hin as [Hin|Hin]; [discriminate Hin|]);
      inversion Hin.
  - vm_compute. reflexivity.
  - vm_compute. reflexivity.
  - reflexivity.
Defined.

Lemma walkOriginal_bound fs cwd cb comps :
  Forall (λ c, Path.component c = true) comps →
  ∀ fuel s,
    length comps < fuel →
    (walkOriginal fuel fs cwd cb (Path.absolute comps) s).1.1 ≠ OutOfFuel
    ∧ length (invoked (walkOriginal fuel fs cwd cb (Path.absolute comps) s).2)
      ≤ S (length comps).
Proof.
  induction comps as [|c comps IH] using rev_ind; intros Hcomps fuel s Hfuel.
  all: destruct fuel as [|fuel]; [simpl in Hfuel; lia|].
  all: rewrite walkOriginal_S.
  all: destruct (fs_readdir fs _) as [names|]; [|split; [done|unfold invoked; simpl; lia]].
  all: cbv zeta; destruct (call cb _ _ _) as [v h]; cbn [fst snd].
  all: destruct (truthy v); [destruct v; (split; [done|unfold invoked; simpl; lia])|].
  - rewrite PathFacts.dirname_root. rewrite bool_decide_eq_true_2 by done.
    split; [done|unfold invoked; simpl; lia].
  - apply Forall_app in Hcomps as [Hcomps Hc].
    inversion Hc as [|? ? Hc' _]; subst.
    rewrite PathFacts.dirname_absolute by done.
    rewrite bool_decide_eq_false_2
      by (intros Heq; symmetry in Heq; revert Heq;
          by apply PathFacts.absolute_snoc_ne).
    rewrite length_app in *. simpl in *.
    match goal with
    | |- context [walkOriginal fuel fs cwd cb _ ?st] =>
        specialize (IH Hcomps fuel st ltac:(lia))
    end.
    destruct (walkOriginal fuel _ _ _ _ _) as [[o3 s3] evs3].
    cbn [fst snd] in *. destruct IH as [IH1 IH2]. split; [done|].
    unfold invoked in *.
    change (EvReaddir ?d :: EvCallback ?d' ?f ?w :: evs3)
      with ([EvReaddir d; EvCallback d' f w] ++ evs3).
    rewrite omap_app, length_app.
    change (length (omap _ [EvReaddir _; EvCallback _ _ _])) with 1. lia.
Qed.

(** X15: [escaladeSyncOriginal] terminates.  With an absolute working
    directory, fuel for (depth of the resolved start path) + 1 passes through
    its loop is never used up, and the callback is invoked at most that many
    times. *)
Theorem original_terminates fuel fs cwd start cb s :
  Path.isAbsolute cwd = true →
  Path.depth (Path.resolve cwd ["."; start]) < fuel →
  (escaladeSyncOriginal fuel fs cwd start cb s).1.1 ≠ OutOfFuel
  ∧ length (invoked (escaladeSyncOriginal fuel fs cwd start cb s).2)
    ≤ Path.depth (Path.resolve cwd ["."; start]) + 1.
Proof.
  intros Hcwd.
  destruct (PathFacts.resolve_canonical cwd ["."; start] Hcwd)
    as (comps & Hcomps & Hdir).
  rewrite escaladeSyncOriginal_eq. cbv zeta. rewrite !Hdir.
  rewrite PathFacts.depth_absolute by done. intros Hfuel.
  destruct (fs_stat fs _) as [stats|]; [|split; [done|unfold invoked; simpl; lia]].
  destruct (start_directory_canonical comps (isDirectory stats) Hcomps)
    as (comps' & Hcomps' & -> & Hlen & _).
  pose proof (walkOriginal_bound fs cwd cb comps' Hcomps' fuel s ltac:(lia))
    as [Hnofuel Hcount].
  destruct (walkOriginal fuel _ _ _ _ _) as [[o2 s2] evs2].
  cbn [fst snd] in *. split; [done|]. unfold invoked in *.
  change (EvStat ?d :: evs2) with ([EvStat d] ++ evs2).
  rewrite omap_app, length_app. change (length (omap _ [EvStat _])) with 0. lia.
Qed.

Lemma original_terminates_witness :
  (escaladeSyncOriginal 5 fs_scenario "/" "/a/b/c/file.txt" (cb_never "") init).1.1
  ≠ OutOfFuel
  ∧ length (invoked (escaladeSyncOriginal 5 fs_scenario "/" "/a/b/c/file.txt"
                       (cb_never "") init).2)
    ≤ Path.depth (Path.resolve "/" ["."; "/a/b/c/file.txt"]) + 1.
Proof.
  apply (original_terminates 5 fs_scenario "/" "/a/b/c/file.txt" (cb_never "") init).
  - reflexivity.
  - vm_compute. lia.
Defined.
